(** * PrometheusEditor: duration codec and threshold extraction

    A shallow embedding of the non-UI logic of
    [fbcnms-alarms/components/rules/PrometheusEditor/PrometheusEditor.js]:
    [parseTimeString], [getMostSignificantTime], [fromAlertConfig] and
    [toAlertConfig], the number field of [TimeNumberEditor],
    [getThresholdExpression] / [asBinaryComparator], the hook
    [useThresholdExpressionEditorState], and the calls of [saveAlert].

    Conventions.
    - The numbers of the duration codec are built from decimal digits
      only: a [number] is an integer or an infinity, rounded as a double is
      ([round_double]), and [NaN] is the [None] of an [option number].
      The two zeros are one: they are equal under [===], falsy alike, and
      both written ["0"].  A scalar literal of PromQL, which the code only
      copies, is a [Q].
    - A JavaScript string is a [string]; the regular-expression matcher
      walks it as a [list ascii].
    - [undefined] / [null] are the [None] of an option.
    - Objects that the code mutates ([PromQL.Labels]) live in a store and
      are passed around as references. *)

From Stdlib Require Import ZArith QArith_base Ascii String Bool Lia.
From stdpp Require Import base option list strings gmap.

Local Open Scope Z_scope.

(** ** Regular expressions, as ECMAScript matches them *)

Module RegExp.

(** The fragment of pattern syntax that [durationRegex] uses. *)
Inductive regex : Type :=
| RDigit                           (* \d *)
| RChar (c : ascii)                (* a literal character *)
| RSeq (r1 r2 : regex)             (* r1 r2 *)
| RPlus (r : regex)                (* r+ , greedy *)
| RStar (r : regex)                (* r* , greedy *)
| RGroup (i : nat) (r : regex).    (* ( r ), capture number i *)

Abbreviation Captures := (gmap nat (list ascii)).

(** What is left of the input, and the captures so far. *)
Definition MatchState : Type := list ascii * Captures.
Definition Continuation : Type := MatchState → option Captures.
Definition Matcher : Type := Continuation → MatchState → option Captures.

Definition is_digit (c : ascii) : bool :=
  let n := nat_of_ascii c in (48 <=? n)%nat && (n <=? 57)%nat.

(** The capture groups that occur in a pattern. *)
Fixpoint groups (r : regex) : list nat :=
  match r with
  | RDigit | RChar _ => []
  | RSeq r1 r2 => groups r1 ++ groups r2
  | RPlus r | RStar r => groups r
  | RGroup i r => i :: groups r
  end.

(** Every iteration of a quantifier starts with the captures of its body
    reset to undefined. *)
Definition clear_groups (gs : list nat) (caps : Captures) : Captures :=
  foldr delete caps gs.

(** RepeatMatcher with min = 0 and no upper bound, greedy: try one more
    iteration, and only when that fails continue with [k].  An iteration
    that consumes nothing is rejected.  [fuel] is the length of the input
    that is left: an accepted iteration consumes a character, so at fuel 0
    no further iteration can be accepted. *)
Fixpoint repeat_matcher (m : Matcher) (gs : list nat) (k : Continuation)
    (fuel : nat) (x : MatchState) : option Captures :=
  match fuel with
  | O => k x
  | S fuel' =>
      let d : Continuation := λ y,
        if (length y.1 =? length x.1)%nat then None
        else repeat_matcher m gs k fuel' y in
      match m d (x.1, clear_groups gs x.2) with
      | Some caps => Some caps
      | None => k x
      end
  end.

(** The matcher of a pattern, in the continuation-passing form of the
    language definition: backtracking is the [None] of a continuation. *)
Fixpoint matcher (r : regex) (k : Continuation) (x : MatchState)
    {struct r} : option Captures :=
  match r with
  | RDigit =>
      match x.1 with
      | c :: rest => if is_digit c then k (rest, x.2) else None
      | [] => None
      end
  | RChar a =>
      match x.1 with
      | c :: rest => if Ascii.eqb c a then k (rest, x.2) else None
      | [] => None
      end
  | RSeq r1 r2 => matcher r1 (matcher r2 k) x
  | RGroup i r' =>
      matcher r'
        (λ y, k (y.1, <[i := take (length x.1 - length y.1) x.1]> y.2)) x
  | RStar r' => repeat_matcher (matcher r') (groups r') k (length x.1) x
  | RPlus r' =>
      matcher r'
        (λ y, repeat_matcher (matcher r') (groups r') k (length y.1) y)
        (x.1, clear_groups (groups r') x.2)
  end.

(** [str.match(/^ r $/)] for a pattern without the global flag: because of
    [^] only the attempt at index 0 can succeed, and [$] accepts only the
    end of the input.  [None] is the [null] result. *)
Definition match_anchored (r : regex) (s : string) : option Captures :=
  matcher r (λ y, match y.1 with [] => Some y.2 | _ :: _ => None end)
    (list_ascii_of_string s, ∅).

End RegExp.

Import RegExp.

(** ** Numbers and strings *)

Definition digit_value (c : ascii) : Z := Z.of_nat (nat_of_ascii c) - 48.

(** The value of a run of decimal digits, most significant first. *)
Definition digits_value (ds : list ascii) : Z :=
  fold_left (λ acc c, 10 * acc + digit_value c) ds 0.

(** White space, as far as ASCII goes. *)
Definition is_space (c : ascii) : bool :=
  let n := nat_of_ascii c in
  ((9 <=? n)%nat && (n <=? 13)%nat) || (n =? 32)%nat.

(** A number that is not NaN: an integer, or an infinity.  The code builds
    its numbers from decimal digits, so fractions do not occur; the
    negative zero is not told apart from 0. *)
Inductive number : Type :=
| Finite (z : Z)
| Infinity (negative : bool).

Coercion Finite : Z >-> number.

(** The double nearest to a non-negative integer, a tie going to the even
    significand; from 2^1024 on the result is infinite. *)
Definition round_magnitude (z : Z) : number :=
  if z <? 2 ^ 53 then Finite z
  else
    let e := Z.log2 z - 52 in
    let q := z / 2 ^ e in
    let r := z mod 2 ^ e in
    let half := 2 ^ (e - 1) in
    let q' :=
      if r <? half then q
      else if half <? r then q + 1
      else if Z.even q then q else q + 1 in
    let v := q' * 2 ^ e in
    if 2 ^ 1024 <=? v then Infinity false else Finite v.

Definition negate (x : number) : number :=
  match x with
  | Finite z => Finite (- z)
  | Infinity negative => Infinity (negb negative)
  end.

(** The Number value of a mathematical integer. *)
Definition round_double (z : Z) : number :=
  if z <? 0 then negate (round_magnitude (- z)) else round_magnitude z.

Fixpoint take_while {A} (p : A → bool) (l : list A) : list A :=
  match l with
  | a :: l' => if p a then a :: take_while p l' else []
  | [] => []
  end.

Fixpoint drop_while {A} (p : A → bool) (l : list A) : list A :=
  match l with
  | a :: l' => if p a then drop_while p l' else l
  | [] => []
  end.

(** ToString of a capture: an unmatched group is [undefined]. *)
Definition to_string (v : option (list ascii)) : list ascii :=
  match v with
  | Some s => s
  | None => list_ascii_of_string "undefined"
  end.

(** [parseInt(v, 10)]: leading white space is skipped, a sign is read, then
    the longest run of decimal digits; no digit at all gives NaN, and
    otherwise the result is the Number value of the integer that was read.
    (Past the 20th significant digit the language lets an implementation
    read the digits as zeros; the digits are read as they are here, as V8
    does.) *)
Definition parseInt (v : option (list ascii)) : option number :=
  let s := drop_while is_space (to_string v) in
  let '(sign, s') :=
    match s with
    | "-"%char :: t => (-1, t)
    | "+"%char :: t => (1, t)
    | _ => (1, s)
    end in
  match take_while is_digit s' with
  | [] => None
  | ds => Some (round_double (sign * digits_value ds))
  end.

(** [x || 0] on a number: NaN and 0 are falsy. *)
Definition or_zero (x : option number) : number :=
  match x with
  | Some (Finite n) => if n =? 0 then Finite 0 else Finite n
  | Some (Infinity negative) => Infinity negative
  | None => Finite 0
  end.

(** ** parseTimeString *)

Record Duration : Type := mkDuration {
  hours : number;
  minutes : number;
  seconds : number;
}.

(** [/^((\d+)h)*((\d+)m)*((\d+)s)*$/] *)
Definition segment (outer inner : nat) (unit : ascii) : regex :=
  RStar (RGroup outer (RSeq (RGroup inner (RPlus RDigit)) (RChar unit))).

Definition durationRegex : regex :=
  RSeq (segment 1 2 "h") (RSeq (segment 3 4 "m") (segment 5 6 "s")).

Definition parseTimeString (timeStamp : string) : Duration :=
  if String.eqb timeStamp "" then mkDuration 0 0 0
  else
    match match_anchored durationRegex timeStamp with
    | None => mkDuration 0 0 0
    | Some duration =>
        let hours := or_zero (parseInt (duration !! 2%nat)) in
        let minutes := or_zero (parseInt (duration !! 4%nat)) in
        let seconds := or_zero (parseInt (duration !! 6%nat)) in
        mkDuration hours minutes seconds
    end.

(** ** getMostSignificantTime and the [for] field of toAlertConfig *)

Record MostSignificantTime : Type := mkTime {
  timeNumber : number;
  timeUnit : string;
}.

(** Truthiness of a number that is not NaN. *)
Definition truthy (n : number) : bool :=
  match n with
  | Finite z => negb (z =? 0)
  | Infinity _ => true
  end.

Definition getMostSignificantTime (duration : Duration) : MostSignificantTime :=
  if truthy (hours duration) then mkTime (hours duration) "h"
  else if truthy (minutes duration) then mkTime (minutes duration) "m"
  else mkTime (seconds duration) "s".

Definition digit_char (d : Z) : ascii := ascii_of_nat (48 + Z.to_nat d).

(** The decimal digits of a non-negative integer, least significant digit
    produced first and pushed on [acc].  [fuel] bounds the number of
    digits. *)
Fixpoint digits_fuel (fuel : nat) (n : Z) (acc : list ascii) : list ascii :=
  match fuel with
  | O => acc
  | S fuel' =>
      let acc' := digit_char (n mod 10) :: acc in
      if n / 10 =? 0 then acc' else digits_fuel fuel' (n / 10) acc'
  end.

Definition digits_of (n : Z) : list ascii :=
  digits_fuel (S (Z.to_nat (Z.log2 n))) n [].

(** Does the decimal value [v] read back as the double [z]? *)
Definition reads_as (z v : Z) : bool :=
  match round_double v with
  | Finite w => w =? z
  | Infinity _ => false
  end.

(** Number::toString picks the decimal numeral with the fewest significant
    digits that reads back as the number, the nearest one when there are
    two.  [shortest_search z len steps k] tries [k], [k + 1], ...
    significant digits, [len] being the number of digits of [z]: with
    [p = 10 ^ (len - k)] the candidates are the multiples of [p] on either
    side of [z]. *)
Fixpoint shortest_search (z len : Z) (steps : nat) (k : Z) : Z :=
  match steps with
  | O => z
  | S steps' =>
      let p := 10 ^ (len - k) in
      let lo := z / p * p in
      let hi := lo + p in
      if reads_as z lo && reads_as z hi
      then (if z - lo <=? hi - z then lo else hi)
      else if reads_as z lo then lo
      else if reads_as z hi then hi
      else shortest_search z len steps' (k + 1)
  end.

(** Seventeen significant digits tell any two doubles apart. *)
Definition shortest_value (z : Z) : Z :=
  shortest_search z (Z.of_nat (length (digits_of z))) 17 1.

Fixpoint strip_zeros (ds : list ascii) : list ascii :=
  match ds with
  | "0"%char :: ds' => strip_zeros ds'
  | _ => ds
  end.

(** [d.ddde+x]: the significant digits of the numeral [ds], with a point
    after the first when there are more, and the exponent. *)
Definition exponent_notation (ds : list ascii) : list ascii :=
  match rev (strip_zeros (rev ds)) with
  | [] => []
  | d :: rest =>
      d :: (match rest with [] => [] | _ :: _ => "."%char :: rest end)
      ++ list_ascii_of_string "e+" ++ digits_of (Z.of_nat (length ds) - 1)
  end.

(** The string of a non-negative integer that is a double: below 10^21
    the shortest numeral in plain digits (closed with zeros), from 10^21 on
    the exponent notation. *)
Definition magnitude_to_string (z : Z) : list ascii :=
  let ds := digits_of (shortest_value z) in
  if z <? 10 ^ 21 then ds else exponent_notation ds.

(** Number to string, as a template literal does it: [None] is NaN. *)
Definition number_to_string (x : option number) : string :=
  match x with
  | None => "NaN"
  | Some (Infinity false) => "Infinity"
  | Some (Infinity true) => "-Infinity"
  | Some (Finite n) =>
      if n <? 0
      then String "-" (string_of_list_ascii (magnitude_to_string (- n)))
      else string_of_list_ascii (magnitude_to_string n)
  end.

(** The form's state; [timeNumber] is NaN while the number field is empty. *)
Record FormState : Type := mkFormState {
  form_ruleName : string;
  form_expression : string;
  form_severity : string;
  form_timeNumber : option number;
  form_timeUnit : string;
  form_description : string;
  form_labels : gmap string string;
}.

Record AlertConfig : Type := mkAlertConfig {
  alert : string;
  expr : string;
  labels : gmap string string;
  for_ : string;
  annotations_description : string;
}.

Definition toAlertConfig (form : FormState) : AlertConfig :=
  {| alert := form_ruleName form;
     expr := form_expression form;
     labels := <["severity" := form_severity form]> (form_labels form);
     for_ := number_to_string (form_timeNumber form) +:+ form_timeUnit form;
     annotations_description := form_description form |}.

(** The form fields that [fromAlertConfig] fills from a duration. *)
Definition form_of_time (t : MostSignificantTime) (form : FormState) : FormState :=
  {| form_ruleName := form_ruleName form;
     form_expression := form_expression form;
     form_severity := form_severity form;
     form_timeNumber := Some (timeNumber t);
     form_timeUnit := timeUnit t;
     form_description := form_description form;
     form_labels := form_labels form |}.

(** A duration with exactly one non-zero field, of magnitude [n] and unit
    [u]. *)
Inductive single_unit : Duration → Z → string → Prop :=
| single_hours (n : Z) : n ≠ 0 → single_unit (mkDuration n 0 0) n "h"
| single_minutes (n : Z) : n ≠ 0 → single_unit (mkDuration 0 n 0) n "m"
| single_seconds (n : Z) : n ≠ 0 → single_unit (mkDuration 0 0 n) n "s".

(** ** The expression tree of PromQL and the threshold record *)

(** Modelled from the spec: the class [PromQL.BinaryComparator], which the
    source builds with [new PromQL.BinaryComparator('==')]; its vocabulary
    is the six relational operators. *)
Inductive BinaryComparator : Type :=
| CmpEq | CmpNe | CmpGt | CmpLt | CmpGe | CmpLe.

(** Modelled from the spec: the type [PromQL.BinaryOperator].  A comparator
    is an object of class [BinaryComparator]; any other operator (an
    arithmetic one, say) is a plain string, which is what
    [operator instanceof Object] tells apart. *)
Inductive BinaryOperator : Type :=
| OperatorSymbol (symbol : string)
| OperatorComparator (comparator : BinaryComparator).

(** Modelled from the spec: the class [PromQL.Labels], an ordered
    collection of (name, value) pairs, and its method [removeByName], which
    drops the labels of that name. *)
Abbreviation Labels := (list (string * string)).

Definition removeByName (name : string) (ls : Labels) : Labels :=
  filter (λ l, l.1 ≠ name) ls.

(** [Labels] objects are mutable and shared: they live in a store and are
    named by their index in it. *)
Abbreviation ref := nat.
Abbreviation Store := (list Labels).

(** [new PromQL.Labels()] *)
Definition new_Labels (st : Store) : ref * Store := (length st, st ++ [[]]).

(** [obj.removeByName(name)] on the object behind [r], in place. *)
Definition call_removeByName (r : ref) (name : string) (st : Store) : Store :=
  alter (removeByName name) r st.

(** Modelled from the spec: the node classes of [PromQL.Expression] that
    the source tests with [instanceof]; a node of a class unrelated to
    them is an [OtherExpression].  A selector's name and labels may be
    absent, which the source allows for with [||].

    [instanceof] is also true of an object whose class extends the class
    tested, as the library's [RangeSelector] extends [InstantSelector]: a
    [SubclassInstance] is such an object, of class [class], with the fields
    of [base] (its own further fields are never read by the source). *)
Inductive Expression : Type :=
| BinaryOperation (operator : BinaryOperator) (lh rh : Expression)
| InstantSelector (selectorName : option string) (labels : option ref)
| Scalar (value : Q)
| SubclassInstance (class : string) (base : Expression)
| OtherExpression (kind : string).

(** What [instanceof] and the reads of fields see of a node: the node of
    the class that is extended. *)
Fixpoint as_base (exp : Expression) : Expression :=
  match exp with
  | SubclassInstance _ base => as_base base
  | _ => exp
  end.

Record ThresholdExpression : Type := mkThreshold {
  metricName : string;
  filters : ref;
  comparator : BinaryComparator;
  value : Q;
}.

Definition asBinaryComparator (operator : BinaryOperator)
    : option BinaryComparator :=
  match operator with
  | OperatorComparator c => Some c
  | OperatorSymbol _ => None
  end.

Definition getThresholdExpression (exp : Expression) (st : Store)
    : option ThresholdExpression * Store :=
  match as_base exp with
  | BinaryOperation operator lh rh =>
      match as_base lh, as_base rh with
      | InstantSelector selectorName labels, Scalar v =>
          let metricName := default "" selectorName in
          let threshold := v in
          let '(filters, st) :=
            match labels with
            | Some r => (r, st)
            | None => new_Labels st
            end in
          let st := call_removeByName filters "networkID" st in
          match asBinaryComparator operator with
          | None => (None, st)
          | Some comparator =>
              (Some (mkThreshold metricName filters comparator threshold), st)
          end
      | _, _ => (None, st)
      end
  | _ => (None, st)
  end.

(** The labels a selector carries: none at all reads as no label. *)
Definition selector_labels (st : Store) (labels : option ref) : option Labels :=
  match labels with
  | Some r => st !! r
  | None => Some []
  end.

(** A binary comparison of an instant selector with a scalar. *)
Definition is_threshold_shape (exp : Expression) : bool :=
  match exp with
  | BinaryOperation (OperatorComparator _) (InstantSelector _ _) (Scalar _) => true
  | _ => false
  end.

(** The tests of the source on an expression: [instanceof] on it and on
    its two operands, and the guard on the operator. *)
Definition passes_tests (exp : Expression) : bool :=
  match as_base exp with
  | BinaryOperation (OperatorComparator _) lh rh =>
      match as_base lh, as_base rh with
      | InstantSelector _ _, Scalar _ => true
      | _, _ => false
      end
  | _ => false
  end.

(** ** useThresholdExpressionEditorState *)

(** What the hook does to the outside: a call of the parser, a snackbar. *)
Inductive Event : Type :=
| ParseCall (source : option string)
| Snackbar (message variant : string).

Record Props : Type := mkProps {
  expression : option string;
  thresholdEditorEnabled : option bool;
}.

(** The cells React keeps for the hook between renders: the two states, the
    memoised parse result, the dependencies the effect last ran with, and
    the store of the [Labels] objects. *)
Record HookState : Type := mkHookState {
  thresholdExpression : ThresholdExpression;
  advancedEditorMode : bool;
  parsedExpression : option Expression;
  effectDeps : option Expression;
  store : Store;
}.

(** [!expression]: undefined, null and the empty string are falsy. *)
Definition no_expression (expression : option string) : bool :=
  match expression with
  | None => true
  | Some s => String.eqb s ""
  end.

(** [!thresholdEditorEnabled] *)
Definition not_enabled (thresholdEditorEnabled : option bool) : bool :=
  match thresholdEditorEnabled with
  | None => true
  | Some b => negb b
  end.

Definition parse_error_message : string :=
  "Error parsing alert expression. You can still edit this using the advanced editor, but you won't be able to use the UI expression editor.".

Definition setAdvancedEditorMode (b : bool) (h : HookState) : HookState :=
  mkHookState (thresholdExpression h) b (parsedExpression h) (effectDeps h)
    (store h).

Definition setThresholdExpression (t : ThresholdExpression) (h : HookState)
    : HookState :=
  mkHookState t (advancedEditorMode h) (parsedExpression h) (effectDeps h)
    (store h).

Definition with_store (st : Store) (h : HookState) : HookState :=
  mkHookState (thresholdExpression h) (advancedEditorMode h)
    (parsedExpression h) (effectDeps h) st.

Definition with_effectDeps (deps : option Expression) (h : HookState)
    : HookState :=
  mkHookState (thresholdExpression h) (advancedEditorMode h)
    (parsedExpression h) deps (store h).

(** The body of the effect. *)
Definition effect (expression : option string) (h : HookState)
    : HookState * list Event :=
  if no_expression expression then (setAdvancedEditorMode false h, [])
  else
    match parsedExpression h with
    | Some exp =>
        let '(newThresholdExpression, st) :=
          getThresholdExpression exp (store h) in
        match newThresholdExpression with
        | Some t =>
            (setThresholdExpression t
               (setAdvancedEditorMode false (with_store st h)), [])
        | None => (setAdvancedEditorMode true (with_store st h), [])
        end
    | None => (h, [Snackbar parse_error_message "error"])
    end.

#[global] Instance Q_eq_dec : EqDecision Q.
Proof. solve_decision. Defined.
#[global] Instance BinaryComparator_eq_dec : EqDecision BinaryComparator.
Proof. solve_decision. Defined.
#[global] Instance BinaryOperator_eq_dec : EqDecision BinaryOperator.
Proof. solve_decision. Defined.
#[global] Instance Expression_eq_dec : EqDecision Expression.
Proof. solve_decision. Defined.

Section Hook.
(** The parser of [PromQLParser], with its [try]/[catch]: [None] when it
    throws or returns nothing, otherwise the tree together with the
    [Labels] objects it built (the tree's references index them).  The
    hook's own [new Labels()] is numbered after these objects. *)
Variable Parse : option string → option (Expression * Store).

(** One call of the hook, that is one render of the component, and the
    effects that run after it.  [prev] is [None] on the first render.

    First render: the states take their initial values, the memo (whose
    dependency list is empty) runs the parser, and the effect runs.
    Later renders: the states and the memo keep their values, and the
    effect runs only if its dependency, the memoised parse result, is not
    the one it last ran with. *)
Definition useThresholdExpressionEditorState (props : Props)
    (prev : option HookState)
    : HookState * list Event :=
  match prev with
  | None =>
      let parsed := Parse (expression props) in
      let '(filters, st) :=
        new_Labels (match parsed with Some (_, st) => st | None => [] end) in
      let h :=
        mkHookState (mkThreshold "" filters CmpEq 0)
          (not_enabled (thresholdEditorEnabled props))
          (fst <$> parsed) (fst <$> parsed) st in
      let '(h', events) := effect (expression props) h in
      (h', ParseCall (expression props) :: events)
  | Some h =>
      if decide (effectDeps h = parsedExpression h) then (h, [])
      else effect (expression props) (with_effectDeps (parsedExpression h) h)
  end.
End Hook.

Definition parser_calls (events : list Event) : nat :=
  length (List.filter (λ e, match e with ParseCall _ => true | _ => false end) events).

Definition warnings (events : list Event) : nat :=
  length (List.filter (λ e, match e with Snackbar _ _ => true | _ => false end) events).

(** A parser that fails on every input. *)
Definition failing_parser : option string → option (Expression * Store) :=
  λ _, None.

(** The documented reduction: the first non-zero field in the order hours,
    minutes, seconds; seconds with magnitude 0 when there is none. *)
Definition highest_nonzero (d : Duration) : option (number * string) :=
  List.find (λ p, truthy p.1)
    [(hours d, "h"); (minutes d, "m"); (seconds d, "s")]%string.

Definition reduceToMostSignificantUnit (d : Duration) : MostSignificantTime :=
  match highest_nonzero d with
  | Some (n, u) => mkTime n u
  | None => mkTime 0 "s"
  end.

(** * Auxiliary definitions for the proofs *)

(** ** Segments: what one iteration of [((\d+)u)*] consumes *)

(** A leading [\d+u]: the digits and what follows the unit letter. *)
Definition seg_split (u : ascii) (s : list ascii)
    : option (list ascii * list ascii) :=
  match take_while is_digit s, drop_while is_digit s with
  | (_ :: _) as ds, c :: rest => if Ascii.eqb c u then Some (ds, rest) else None
  | _, _ => None
  end.

(** All leading [\d+u] segments, in order, and the rest of the input. *)
Fixpoint scan_segments (u : ascii) (fuel : nat) (s : list ascii)
    : list (list ascii) * list ascii :=
  match fuel with
  | O => ([], s)
  | S fuel' =>
      match seg_split u s with
      | Some (ds, rest) =>
          let '(segs, r) := scan_segments u fuel' rest in (ds :: segs, r)
      | None => ([], s)
      end
  end.

(** The captures after the iterations of [((\d+)u)*], groups [o] and [i]:
    those of the last iteration, if there was one. *)
Definition set_last (u : ascii) (o i : nat) (segs : list (list ascii))
    (caps : Captures) : Captures :=
  match last segs with
  | Some ds => <[o := ds ++ [u]]> (<[i := ds]> (clear_groups [o; i] caps))
  | None => caps
  end.

(** A non-empty run of decimal digits. *)
Definition digit_run (ds : list ascii) : Prop :=
  ds ≠ [] ∧ forallb is_digit ds = true.

(** The concatenation of the segments [ds u] for [ds] in [segs]. *)
Definition render (u : ascii) (segs : list (list ascii)) : list ascii :=
  concat (map (λ ds, ds ++ [u]) segs).

(** The body of the group [((\d+)u)], numbered [o] outside and [i] inside. *)
Definition segment_body (u : ascii) (o i : nat) : regex :=
  RGroup o (RSeq (RGroup i (RPlus RDigit)) (RChar u)).

(** ** The language of [durationRegex] and of the documented grammar *)

Definition last_value (segs : list (list ascii)) : Z :=
  match last segs with
  | Some ds => digits_value ds
  | None => 0
  end.

(** The number that JavaScript reads from the last segment, 0 when there
    is no segment. *)
Definition last_number (segs : list (list ascii)) : number :=
  match last segs with
  | Some ds => round_double (digits_value ds)
  | None => Finite 0
  end.

(** Numbers that are not negative, and numbers that are not positive. *)
Definition number_nonneg (x : number) : Prop :=
  match x with
  | Finite z => 0 ≤ z
  | Infinity negative => negative = false
  end.

Definition number_le_zero (x : number) : Prop :=
  match x with
  | Finite z => z ≤ 0
  | Infinity negative => negative = true
  end.

(** An integer that is a double. *)
Definition representable (z : Z) : Prop := round_double z = Finite z.

(** Every number of the program is a double. *)
Definition is_double (x : number) : Prop :=
  match x with
  | Finite z => representable z
  | Infinity _ => True
  end.

(** The numbers below 10^21, which are written without an exponent. *)
Definition below_1e21 (x : number) : bool :=
  match x with
  | Finite z => z <? 10 ^ 21
  | Infinity negative => negative
  end.

(** The significand that [round_magnitude] rounds to. *)
Definition rounded_significand (v : Z) : Z :=
  let e := Z.log2 v - 52 in
  let q := v / 2 ^ e in
  let r := v mod 2 ^ e in
  let half := 2 ^ (e - 1) in
  if r <? half then q
  else if half <? r then q + 1
  else if Z.even q then q else q + 1.

(** [(\d+h)*(\d+m)*(\d+s)*]: the strings that [durationRegex] accepts. *)
Definition star_grammar (timeStamp : string) : Prop :=
  ∃ hs ms ss : list (list ascii),
    Forall digit_run hs ∧ Forall digit_run ms ∧ Forall digit_run ss ∧
    list_ascii_of_string timeStamp
    = render "h" hs ++ render "m" ms ++ render "s" ss.

(** [(\d+u)?]: the segment is there once, or not at all. *)
Definition optional_segment (u : ascii) (seg : option (list ascii))
    : list ascii :=
  match seg with
  | Some ds => ds ++ [u]
  | None => []
  end.

Definition optional_run (seg : option (list ascii)) : Prop :=
  match seg with
  | Some ds => digit_run ds
  | None => True
  end.


(** [(\d+h)?(\d+m)?(\d+s)?], the grammar as the documentation words it. *)
Definition spec_grammar (timeStamp : string) : Prop :=
  ∃ h m s : option (list ascii),
    optional_run h ∧ optional_run m ∧ optional_run s ∧
    list_ascii_of_string timeStamp
    = optional_segment "h" h ++ optional_segment "m" m
      ++ optional_segment "s" s.

Definition at_end : Continuation :=
  λ y, match y.1 with [] => Some y.2 | _ :: _ => None end.

Definition scan_duration (l : list ascii) : option Captures :=
  let '(hs, r1) := scan_segments "h" (length l) l in
  let '(ms, r2) := scan_segments "m" (length r1) r1 in
  let '(ss, r3) := scan_segments "s" (length r2) r2 in
  match r3 with
  | [] => Some (set_last "s" 5 6 ss (set_last "m" 3 4 ms (set_last "h" 1 2 hs ∅)))
  | _ :: _ => None
  end.

(** Inputs used in the worked examples. *)
Definition blank_form : FormState := mkFormState "" "" "" None "" "" ∅.

Definition cpu_util_store : Store :=
  [[("networkID", "abc"); ("host", "a")]]%string.

Definition cpu_util_above_90 : Expression :=
  BinaryOperation (OperatorComparator CmpGt)
    (InstantSelector (Some "cpu_util"%string) (Some 0%nat))
    (Scalar (Qmake 90 1)).

(** * The rest of the editor *)

(** ** The time fields *)

Record TimeUnit : Type := mkTimeUnit {
  unit_value : string;
  unit_label : string;
}.

Definition timeUnits : list TimeUnit :=
  [mkTimeUnit "" ""; mkTimeUnit "s" "seconds"; mkTimeUnit "m" "minutes";
   mkTimeUnit "h" "hours"].

(** TimeNumberEditor, the value shown:
    [isNaN(props.timeNumber) ? '' : props.timeNumber]. *)
Definition timeNumber_value (timeNumber : option number) : string :=
  match timeNumber with
  | None => ""
  | Some n => number_to_string (Some n)
  end.

(** TimeNumberEditor, the form update on a change:
    [val => ({timeNumber: parseInt(val, 10)})]. *)
Definition timeNumber_of_input (val : string) : option number :=
  parseInt (Some (list_ascii_of_string val)).

(** ** fromAlertConfig *)

(** An alert rule as [fromAlertConfig] reads it: every field may be
    missing, which the source allows for with [??], [||] and [?.].
    [labels] and [annotations] are objects used as maps. *)
Record StoredAlertConfig : Type := mkStored {
  stored_alert : option string;
  stored_expr : option string;
  stored_labels : option (gmap string string);
  stored_for : option string;
  stored_annotations : option (gmap string string);
}.

(** What [toAlertConfig] writes, read as a stored rule: every field is
    there, and [annotations] holds the description only. *)
Definition as_stored (cfg : AlertConfig) : StoredAlertConfig :=
  mkStored (Some (alert cfg)) (Some (expr cfg)) (Some (labels cfg))
    (Some (for_ cfg))
    (Some {["description"%string := annotations_description cfg]}).

(** [warning] stands for the constant [SEVERITY.WARNING.name], which is
    declared outside this file. *)
Definition fromAlertConfig (warning : string)
    (rule : option StoredAlertConfig) : FormState :=
  match rule with
  | None => mkFormState "" "" warning (Some (Finite 0)) "s" "" ∅
  | Some rule =>
      let timeString := default ""%string (stored_for rule) in
      let t := getMostSignificantTime (parseTimeString timeString) in
      mkFormState
        (default ""%string (stored_alert rule))
        (default ""%string (stored_expr rule))
        (default ""%string (stored_labels rule ≫= (.!! "severity"%string)))
        (Some (timeNumber t))
        (timeUnit t)
        (default ""%string
           (stored_annotations rule ≫= (.!! "description"%string)))
        (default ∅ (stored_labels rule))
  end.

(** A duration reduced to its most significant non-zero field. *)
Definition keep_most_significant (d : Duration) : Duration :=
  if truthy (hours d) then mkDuration (hours d) 0 0
  else if truthy (minutes d) then mkDuration 0 (minutes d) 0
  else mkDuration 0 0 (seconds d).

Definition with_labels (ls : gmap string string) (form : FormState)
    : FormState :=
  mkFormState (form_ruleName form) (form_expression form)
    (form_severity form) (form_timeNumber form) (form_timeUnit form)
    (form_description form) ls.

(** ** More of getThresholdExpression and of the hook *)

(** The labels object of the selector on the left of a binary operation. *)
Definition selector_ref (exp : Expression) : option ref :=
  match as_base exp with
  | BinaryOperation _ lh _ =>
      match as_base lh with
      | InstantSelector _ labels => labels
      | _ => None
      end
  | _ => None
  end.

(** [toggleMode]: [setAdvancedEditorMode(!advancedEditorMode)]. *)
Definition toggleMode (h : HookState) : HookState :=
  setAdvancedEditorMode (negb (advancedEditorMode h)) h.

(** ** saveAlert *)

(** A value that is thrown, as the [catch] of [saveAlert] reads it.  An
    [ErrorValue] has a [message] and, when [error.response] is there, the
    [response_message] under [error.response.data.message], both as the
    template literal writes them (["undefined"] for a field that is not
    there).  A [Malformed] value is one on which these reads throw in their
    turn: a response without [data], or [null] or [undefined] thrown. *)
Inductive Thrown : Type :=
| ErrorValue (response_message : option string) (message : string)
| Malformed.

(** How the call of the API ends: the promise is fulfilled, or it is
    rejected, with an error that carries a message and, when the server
    answered, the message of the response, or with a malformed value. *)
Inductive ApiOutcome : Type :=
| Fulfilled
| Rejected (response_message : option string) (message : string)
| RejectedMalformed.

Record SaveRequest : Type := mkRequest {
  request_networkId : string;
  request_rule : AlertConfig;
}.

(** What [saveAlert] does to the outside, in order. *)
Inductive SaveEvent : Type :=
| CreateAlertRule (request : SaveRequest)
| EditAlertRule (request : SaveRequest)
| EnqueueSnackbar (message variant : string)
| OnExit.

(** [error.response ? error.response.data.message : error.message] *)
Definition error_text (response_message : option string) (message : string)
    : string :=
  match response_message with
  | Some m => m
  | None => message
  end.

Definition failure_events (response_message : option string)
    (message : string) : list SaveEvent :=
  [EnqueueSnackbar
     ("Unable to create rule: " +:+ error_text response_message message
      +:+ ".") "error"].

(** The [catch] block: the snackbar of the failure, unless reading the
    error throws first.  (If this snackbar throws, the call has still been
    made.) *)
Definition catch_events (error : Thrown) : list SaveEvent :=
  match error with
  | ErrorValue response_message message =>
      failure_events response_message message
  | Malformed => []
  end.

Definition success_message (isNew : bool) : string :=
  "Successfully " +:+ (if isNew then "added" else "saved") +:+ " alert rule".

(** [saveAlert], as the calls it makes to the outside.  [api] is the
    outcome of the API call; [enqueueSnackbar] and [onExit] tell what these
    callbacks throw, [None] when they return. *)
Definition saveAlert (formState : option FormState) (isNew : bool)
    (networkId : string) (api : bool → SaveRequest → ApiOutcome)
    (enqueueSnackbar : string → string → option Thrown)
    (onExit : option Thrown)
    : list SaveEvent :=
  match formState with
  | None => catch_events (ErrorValue None "Alert config empty")
  | Some form =>
      let request := mkRequest networkId (toAlertConfig form) in
      let call :=
        if isNew then CreateAlertRule request else EditAlertRule request in
      match api isNew request with
      | Fulfilled =>
          let success := EnqueueSnackbar (success_message isNew) "success" in
          match enqueueSnackbar (success_message isNew) "success" with
          | Some error => [call; success] ++ catch_events error
          | None =>
              match onExit with
              | Some error => [call; success; OnExit] ++ catch_events error
              | None => [call; success; OnExit]
              end
          end
      | Rejected response_message message =>
          call :: catch_events (ErrorValue response_message message)
      | RejectedMalformed => call :: catch_events Malformed
      end
  end.

Definition api_calls (events : list SaveEvent) : nat :=
  length (List.filter
            (λ e, match e with
                  | CreateAlertRule _ | EditAlertRule _ => true
                  | _ => false
                  end) events).

Definition snackbars (events : list SaveEvent) : nat :=
  length (List.filter
            (λ e, match e with EnqueueSnackbar _ _ => true | _ => false end)
            events).

Definition exits (events : list SaveEvent) : nat :=
  length (List.filter
            (λ e, match e with OnExit => true | _ => false end) events).

(** An API that rejects every call, and one that accepts every call. *)
Definition rejecting_api : bool → SaveRequest → ApiOutcome :=
  λ _ _, Rejected (Some "rule exists"%string) "Request failed"%string.

Definition accepting_api : bool → SaveRequest → ApiOutcome :=
  λ _ _, Fulfilled.

(** Callbacks that return. *)
Definition quiet_snackbar : string → string → option Thrown := λ _ _, None.

(** A parser that knows one expression. *)
Definition cpu_util_source : string :=
  "cpu_util{networkID='abc',host='a'} > 90".

Definition cpu_util_parser : option string → option (Expression * Store) :=
  λ source,
    match source with
    | Some s =>
        if String.eqb s cpu_util_source
        then Some (cpu_util_above_90, cpu_util_store)
        else None
    | None => None
    end.

(** A form used in the worked examples. *)
Definition five_minutes_form : FormState :=
  mkFormState "high cpu" "cpu_util > 90" "major" (Some (Finite 5)) "m" "busy"
    {["team"%string := "sre"%string]}.

Definition emptied_number_form : FormState :=
  mkFormState "high cpu" "cpu_util > 90" "major" None "h" "busy" ∅.

Definition blank_unit_form : FormState :=
  mkFormState "high cpu" "cpu_util > 90" "major" (Some (Finite 5)) "" "busy" ∅.

(** A parser that answers every source with the sum [a + b]. *)
Definition sum_parser : option string → option (Expression * Store) :=
  λ _, Some (BinaryOperation (OperatorSymbol "+")
               (InstantSelector (Some "a"%string) None)
               (InstantSelector (Some "b"%string) None), []).


(** * Worked examples *)

Example parseTimeString_full : parseTimeString "2h30m15s" = mkDuration 2 30 15.
Proof. vm_compute. reflexivity. Qed.

Example parseTimeString_minutes : parseTimeString "45m" = mkDuration 0 45 0.
Proof. vm_compute. reflexivity. Qed.

Example parseTimeString_garbage : parseTimeString "garbage" = mkDuration 0 0 0.
Proof. vm_compute. reflexivity. Qed.

Example parseTimeString_repeat : parseTimeString "1h2h30m" = mkDuration 2 30 0.
Proof. vm_compute. reflexivity. Qed.

Example parseTimeString_order : parseTimeString "5m1h" = mkDuration 0 0 0.
Proof. vm_compute. reflexivity. Qed.

Example number_to_string_120 : number_to_string (Some (Finite 120)) = "120"%string.
Proof. vm_compute. reflexivity. Qed.

Example number_to_string_negative : number_to_string (Some (Finite (-5))) = "-5"%string.
Proof. vm_compute. reflexivity. Qed.

Example number_to_string_zero : number_to_string (Some (Finite 0)) = "0"%string.
Proof. vm_compute. reflexivity. Qed.

Example getThresholdExpression_cpu_util :
  getThresholdExpression cpu_util_above_90 cpu_util_store
  = (Some (mkThreshold "cpu_util" 0%nat CmpGt (Qmake 90 1)),
     [[("host", "a")]]%string).
Proof. vm_compute. reflexivity. Qed.

Example getThresholdExpression_sum :
  getThresholdExpression
    (BinaryOperation (OperatorSymbol "+")
       (InstantSelector (Some "a"%string) None)
       (InstantSelector (Some "b"%string) None)) []
  = (None, []).
Proof. reflexivity. Qed.

Example parse_failure_first_render :
  useThresholdExpressionEditorState failing_parser
    (mkProps (Some "cpu >"%string) (Some true)) None
  = (mkHookState (mkThreshold "" 0%nat CmpEq 0) false None None [[]],
     [ParseCall (Some "cpu >"%string); Snackbar parse_error_message "error"]).
Proof. vm_compute. reflexivity. Qed.


Example number_to_string_exponent :
  number_to_string (Some (Finite (10 ^ 21))) = "1e+21"%string.
Proof. vm_compute. reflexivity. Qed.

Example number_to_string_shortest :
  number_to_string (Some (Finite (2 ^ 64))) = "18446744073709552000"%string.
Proof. vm_compute. reflexivity. Qed.

Example round_double_tie :
  round_double 9007199254740993 = Finite 9007199254740992.
Proof. vm_compute. reflexivity. Qed.

Example parseTimeString_rounds :
  parseTimeString "9007199254740993h" = mkDuration 9007199254740992 0 0.
Proof. vm_compute. reflexivity. Qed.

Example getThresholdExpression_range_selector :
  getThresholdExpression
    (BinaryOperation (OperatorComparator CmpGt)
       (SubclassInstance "RangeSelector"
          (InstantSelector (Some "cpu_util"%string) (Some 0%nat)))
       (Scalar (Qmake 90 1))) cpu_util_store
  = (Some (mkThreshold "cpu_util" 0%nat CmpGt (Qmake 90 1)),
     [[("host", "a")]]%string).
Proof. vm_compute. reflexivity. Qed.

(** * Lemmas on the matcher *)

Lemma take_drop_while {A} (p : A → bool) (l : list A) :
  take_while p l ++ drop_while p l = l.
Proof. induction l as [|a l IH]; simpl; [done|]. destruct (p a); simpl; congruence. Qed.

Lemma take_while_all {A} (p : A → bool) (l r : list A) :
  forallb p l = true → take_while p (l ++ r) = l ++ take_while p r.
Proof.
  induction l as [|a l IH]; simpl; [done|].
  intros [-> Hl]%andb_prop. by rewrite IH.
Qed.

Lemma drop_while_all {A} (p : A → bool) (l r : list A) :
  forallb p l = true → drop_while p (l ++ r) = drop_while p r.
Proof.
  induction l as [|a l IH]; simpl; [done|].
  intros [-> Hl]%andb_prop. by rewrite IH.
Qed.

Lemma take_while_forallb {A} (p : A → bool) (l : list A) :
  forallb p (take_while p l) = true.
Proof. induction l as [|a l IH]; simpl; [done|]. destruct (p a) eqn:E; simpl; [|done]. by rewrite E. Qed.

Lemma seg_split_app u (ds rest : list ascii) :
  is_digit u = false → digit_run ds → seg_split u (ds ++ u :: rest) = Some (ds, rest).
Proof.
  intros u_not_digit [Hne Hall]. unfold seg_split.
  rewrite take_while_all, drop_while_all by done. simpl.
  rewrite u_not_digit, app_nil_r, Ascii.eqb_refl.
  destruct ds; [done | reflexivity].
Qed.

Lemma seg_split_Some u (s ds rest : list ascii) :
  seg_split u s = Some (ds, rest) → s = ds ++ u :: rest ∧ digit_run ds.
Proof.
  unfold seg_split. intros H.
  pose proof (take_drop_while is_digit s) as Hs.
  pose proof (take_while_forallb is_digit s) as Hd.
  destruct (take_while is_digit s) as [|d ds'] eqn:Et; [done|].
  destruct (drop_while is_digit s) as [|c r] eqn:Ed; [done|].
  destruct (Ascii.eqb c u) eqn:Ec; [|done].
  apply Ascii.eqb_eq in Ec. simplify_eq. split; [done|]. by split.
Qed.

Lemma seg_split_length u (s ds rest : list ascii) :
  seg_split u s = Some (ds, rest) → (length rest < length s)%nat.
Proof.
  intros [-> _]%seg_split_Some. rewrite length_app. simpl. lia.
Qed.

Lemma seg_split_digit_head u (s : list ascii) :
  is_Some (seg_split u s) → ∃ c r, s = c :: r ∧ is_digit c = true.
Proof.
  intros [[ds rest] [-> [Hne Hall]]%seg_split_Some].
  destruct ds as [|c ds]; [done|]. simpl in Hall.
  apply andb_prop in Hall as [Hc _]. by exists c, (ds ++ u :: rest).
Qed.

(** [\d*] under a continuation that rejects every input starting with a
    digit: all the digits are taken. *)
Lemma repeat_digit (k : Continuation) :
  (∀ c r caps, is_digit c = true → k (c :: r, caps) = None) →
  ∀ fuel s caps, (length s ≤ fuel)%nat →
    repeat_matcher (matcher RDigit) [] k fuel (s, caps)
    = k (drop_while is_digit s, caps).
Proof.
  intros Hk. induction fuel as [|fuel IH]; intros s caps Hlen.
  - destruct s; [done | simpl in Hlen; lia].
  - cbn [repeat_matcher]. destruct s as [|c r]; [done|].
    cbn. destruct (is_digit c) eqn:Ec; [|done].
    replace (length r =? S (length r))%nat with false
      by (symmetry; apply Nat.eqb_neq; lia).
    rewrite IH by (simpl in Hlen; lia).
    destruct (k (drop_while is_digit r, caps)) eqn:Er; [done|].
    by apply Hk.
Qed.

Lemma matcher_plus_digit (k : Continuation) s caps :
  (∀ c r caps', is_digit c = true → k (c :: r, caps') = None) →
  matcher (RPlus RDigit) k (s, caps)
  = match take_while is_digit s with
    | [] => None
    | _ :: _ => k (drop_while is_digit s, caps)
    end.
Proof.
  intros Hk. destruct s as [|c r]; [done|]. cbn.
  destruct (is_digit c) eqn:Ec; [|done].
  by apply repeat_digit.
Qed.

Section Segment.
Context (u : ascii) (o i : nat).
Context (u_not_digit : is_digit u = false) (o_i : o ≠ i).

(** One iteration of the segment group. *)
Lemma matcher_segment_body (k : Continuation) s caps :
  matcher (segment_body u o i) k (s, caps)
  = match seg_split u s with
    | Some (ds, rest) => k (rest, <[o := ds ++ [u]]> (<[i := ds]> caps))
    | None => None
    end.
Proof using All.
  unfold segment_body.
  change (matcher (RGroup o ?r) k (s, caps))
    with (matcher r (λ y, k (y.1, <[o := take (length s - length y.1) s]> y.2)) (s, caps)).
  change (matcher (RSeq (RGroup i ?r) ?r2) ?k' (s, caps))
    with (matcher r (λ y, matcher r2 k' (y.1, <[i := take (length s - length y.1) s]> y.2)) (s, caps)).
  rewrite matcher_plus_digit.
  2:{ intros c r caps' Hc. cbn. destruct (Ascii.eqb c u) eqn:E; [|done].
      apply Ascii.eqb_eq in E. congruence. }
  unfold seg_split.
  pose proof (take_drop_while is_digit s) as Hs.
  destruct (take_while is_digit s) as [|d ds] eqn:Et; [done|].
  cbn. destruct (drop_while is_digit s) as [|c r] eqn:Ed; [done|].
  destruct (Ascii.eqb c u) eqn:Ec; [|done].
  apply Ascii.eqb_eq in Ec. subst c. f_equal. f_equal.
  assert (length s = length (d :: ds) + S (length r))%nat as Hl
    by (rewrite <- Hs, length_app; done).
  f_equal.
  - rewrite <- Hs at 2. rewrite Hl.
    replace (length (d :: ds) + S (length r) - length r)%nat
      with (length ((d :: ds) ++ [u])) by (rewrite length_app; simpl; lia).
    change ((d :: ds) ++ u :: r) with ((d :: ds) ++ [u] ++ r).
    rewrite app_assoc. by rewrite take_app_length.
  - f_equal. rewrite <- Hs at 2. rewrite Hl.
    replace (length (d :: ds) + S (length r) - length (u :: r))%nat
      with (length (d :: ds)) by (simpl; lia).
    by rewrite take_app_length.
Qed.

Lemma clear_groups_set (a b : list ascii) (caps : Captures) :
  clear_groups [o; i] (<[o := a]> (<[i := b]> (clear_groups [o; i] caps)))
  = clear_groups [o; i] caps.
Proof using All.
  unfold clear_groups. simpl. apply map_eq. intros j.
  destruct (decide (j = o)) as [->|]; [by rewrite !lookup_delete_eq|].
  rewrite !(lookup_delete_ne _ o) by done.
  destruct (decide (j = i)) as [->|]; [by rewrite !lookup_delete_eq|].
  rewrite !(lookup_delete_ne _ i) by done.
  rewrite !lookup_insert_ne by done.
  by rewrite !lookup_delete_ne by done.
Qed.

Lemma set_last_cons ds segs (caps : Captures) :
  set_last u o i (ds :: segs) caps
  = set_last u o i segs
      (<[o := ds ++ [u]]> (<[i := ds]> (clear_groups [o; i] caps))).
Proof using All.
  unfold set_last. destruct segs as [|d' segs]; [done|].
  rewrite last_cons_cons.
  destruct (last (d' :: segs)) eqn:E; [|by apply last_None in E].
  by rewrite clear_groups_set.
Qed.

(** The whole of [((\d+)u)*] under a continuation that rejects every input
    starting with a [\d+u] segment: every leading segment is consumed and
    the captures are those of the last one. *)
Lemma repeat_segment (k : Continuation) :
  (∀ s caps, is_Some (seg_split u s) → k (s, caps) = None) →
  ∀ fuel s caps, (length s ≤ fuel)%nat →
    repeat_matcher (matcher (segment_body u o i)) [o; i] k fuel (s, caps)
    = let '(segs, rest) := scan_segments u fuel s in
      k (rest, set_last u o i segs caps).
Proof using All.
  intros Hk. induction fuel as [|fuel IH]; intros s caps Hlen; [done|].
  cbn [repeat_matcher scan_segments]. rewrite matcher_segment_body. cbn [fst snd].
  destruct (seg_split u s) as [[ds rest]|] eqn:Es; [|done].
  pose proof (seg_split_length _ _ _ _ Es) as Hlt.
  replace (length rest =? length s)%nat with false
    by (symmetry; apply Nat.eqb_neq; lia).
  rewrite IH by lia.
  destruct (scan_segments u fuel rest) as [segs r] eqn:Esc.
  rewrite set_last_cons.
  destruct (k (r, _)) eqn:Ek; [done|].
  apply Hk. by rewrite Es.
Qed.

End Segment.

Section Scan.
Context (u : ascii) (u_not_digit : is_digit u = false).

Lemma scan_segments_render segs rest fuel :
  Forall digit_run segs → seg_split u rest = None →
  (length (render u segs ++ rest) ≤ fuel)%nat →
  scan_segments u fuel (render u segs ++ rest) = (segs, rest).
Proof using All.
  intros Hsegs Hrest. revert fuel.
  induction Hsegs as [|ds segs Hds _ IH]; intros fuel Hlen.
  - simpl. destruct fuel; [done|]. simpl. by rewrite Hrest.
  - unfold render in *. simpl in *. rewrite <- !app_assoc in *. simpl in *.
    destruct fuel as [|fuel].
    { rewrite length_app in Hlen. simpl in Hlen. lia. }
    simpl. rewrite (seg_split_app u) by done.
    rewrite IH; [done|]. rewrite length_app in Hlen. simpl in Hlen. lia.
Qed.

Lemma scan_segments_sound fuel : ∀ s segs rest,
  scan_segments u fuel s = (segs, rest) →
  s = render u segs ++ rest ∧ Forall digit_run segs ∧
  ((length s ≤ fuel)%nat → seg_split u rest = None).
Proof using All.
  induction fuel as [|fuel IH]; intros s segs rest H; simpl in H.
  - simplify_eq. split_and!; [done|done|].
    intros Hl. destruct rest; [done | simpl in Hl; lia].
  - destruct (seg_split u s) as [[ds r]|] eqn:Es.
    + destruct (scan_segments u fuel r) as [segs' r'] eqn:Esc. simplify_eq.
      apply IH in Esc as (-> & Hf & Hn).
      pose proof (seg_split_length _ _ _ _ Es) as Hlt.
      apply seg_split_Some in Es as [-> Hds].
      split_and!.
      * unfold render. simpl. by rewrite <- !app_assoc.
      * by constructor.
      * intros Hl. apply Hn. lia.
    + simplify_eq. by split_and!.
Qed.

Lemma seg_split_other u' s :
  u ≠ u' → is_Some (seg_split u' s) → seg_split u s = None.
Proof using All.
  intros Hne [[ds r] H]. unfold seg_split in *.
  destruct (take_while is_digit s) as [|d ds']; [done|].
  destruct (drop_while is_digit s) as [|c r']; [done|].
  destruct (Ascii.eqb c u') eqn:E; [|done].
  apply Ascii.eqb_eq in E. subst c.
  destruct (Ascii.eqb u' u) eqn:E'; [|done].
  apply Ascii.eqb_eq in E'. congruence.
Qed.

Lemma seg_split_render_other u' segs rest :
  is_digit u' = false → u ≠ u' → Forall digit_run segs →
  seg_split u rest = None → seg_split u (render u' segs ++ rest) = None.
Proof using All.
  intros Hu' Hne Hsegs Hrest. destruct Hsegs as [|ds segs Hds _]; [done|].
  apply (seg_split_other u'); [done|].
  unfold render. simpl. rewrite <- !app_assoc. simpl.
  rewrite (seg_split_app u') by done. by eexists.
Qed.

Lemma matcher_segment o i (k : Continuation) s caps :
  o ≠ i →
  (∀ s' caps', is_Some (seg_split u s') → k (s', caps') = None) →
  matcher (segment o i u) k (s, caps)
  = let '(segs, rest) := scan_segments u (length s) s in
    k (rest, set_last u o i segs caps).
Proof using All.
  intros Hoi Hk.
  apply (repeat_segment u o i u_not_digit Hoi k Hk (length s) s caps). done.
Qed.

End Scan.

Lemma at_end_segment u s caps :
  is_Some (seg_split u s) → at_end (s, caps) = None.
Proof.
  intros [[ds r] H]. unfold seg_split in H.
  destruct s; [done | reflexivity].
Qed.

(** The three groups of [durationRegex], read off the input left to right. *)
Lemma seconds_rejects_segment u s caps :
  u ≠ "s"%char → is_Some (seg_split u s) →
  matcher (segment 5 6 "s") at_end (s, caps) = None.
Proof.
  intros Hne Hs. rewrite matcher_segment; [|done|done|apply at_end_segment].
  assert (seg_split "s" s = None) as Hn
    by (apply (seg_split_other "s" eq_refl u); [congruence | done]).
  destruct s as [|c s]; [by destruct Hs|].
  cbn [length scan_segments]. by rewrite Hn.
Qed.

Lemma minutes_rejects_segment s caps :
  is_Some (seg_split "h" s) →
  matcher (segment 3 4 "m") (matcher (segment 5 6 "s") at_end) (s, caps) = None.
Proof.
  intros Hs. rewrite matcher_segment; [|done|done|].
  2:{ intros s' caps'. by apply seconds_rejects_segment. }
  assert (seg_split "m" s = None) as Hn
    by (apply (seg_split_other "m" eq_refl "h"); done).
  destruct s as [|c s]; [by destruct Hs|].
  cbn [length scan_segments]. rewrite Hn.
  by apply (seconds_rejects_segment "h").
Qed.

Lemma match_durationRegex (timeStamp : string) :
  match_anchored durationRegex timeStamp
  = scan_duration (list_ascii_of_string timeStamp).
Proof.
  unfold match_anchored, durationRegex, scan_duration.
  set (l := list_ascii_of_string timeStamp).
  change (matcher (RSeq ?a (RSeq ?b ?c)) ?k ?x)
    with (matcher a (matcher b (matcher c at_end)) x).
  rewrite matcher_segment; [|done|done|apply minutes_rejects_segment].
  destruct (scan_segments "h" (length l) l) as [hs r1].
  rewrite matcher_segment; [|done|done|].
  2:{ intros s' caps'. by apply seconds_rejects_segment. }
  destruct (scan_segments "m" (length r1) r1) as [ms r2].
  rewrite matcher_segment; [|done|done|apply at_end_segment].
  destruct (scan_segments "s" (length r2) r2) as [ss r3].
  reflexivity.
Qed.


(** * Lemmas on numbers *)

(** The pieces of [round_magnitude] on a large argument. *)
Lemma round_magnitude_pieces v :
  2 ^ 53 ≤ v →
  let e := Z.log2 v - 52 in
  1 ≤ e ∧ 2 ^ 52 ≤ v / 2 ^ e < 2 ^ 53 ∧ 0 < 2 ^ e.
Proof.
  intros Hv. cbn zeta.
  assert (0 < v) as Hpos by (pose proof (Z.pow_pos_nonneg 2 53); lia).
  assert (53 ≤ Z.log2 v) as Hlog by (apply Z.log2_le_pow2; lia).
  destruct (Z.log2_spec v Hpos) as [Hlo Hhi].
  set (e := Z.log2 v - 52) in *.
  assert (0 < 2 ^ e) as Hpe by (apply Z.pow_pos_nonneg; lia).
  assert (2 ^ Z.log2 v = 2 ^ 52 * 2 ^ e) as E1.
  { rewrite <- Z.pow_add_r by lia. f_equal. lia. }
  assert (2 ^ Z.succ (Z.log2 v) = 2 ^ 53 * 2 ^ e) as E2.
  { rewrite <- Z.pow_add_r by lia. f_equal. lia. }
  split_and!; [lia| | |done].
  - apply Z.div_le_lower_bound; lia.
  - apply Z.div_lt_upper_bound; lia.
Qed.

Lemma round_magnitude_small z : z < 2 ^ 53 → round_magnitude z = Finite z.
Proof.
  intros Hz. unfold round_magnitude.
  destruct (Z.ltb_spec z (2 ^ 53)); [done | lia].
Qed.

Lemma rounded_significand_bounds v :
  2 ^ 53 ≤ v → 2 ^ 52 ≤ rounded_significand v ≤ 2 ^ 53.
Proof.
  intros Hv. destruct (round_magnitude_pieces v Hv) as (_ & Hq & _).
  unfold rounded_significand.
  repeat match goal with |- context [if ?b then _ else _] => destruct b end;
    lia.
Qed.

Lemma round_magnitude_large v :
  2 ^ 53 ≤ v →
  round_magnitude v
  = if 2 ^ 1024 <=? rounded_significand v * 2 ^ (Z.log2 v - 52)
    then Infinity false
    else Finite (rounded_significand v * 2 ^ (Z.log2 v - 52)).
Proof.
  intros Hv. unfold round_magnitude.
  destruct (Z.ltb_spec v (2 ^ 53)); [lia | reflexivity].
Qed.

Lemma round_magnitude_large_ge v w :
  2 ^ 53 ≤ v → round_magnitude v = Finite w → 2 ^ 53 ≤ w.
Proof.
  intros Hv. rewrite round_magnitude_large by done.
  destruct (round_magnitude_pieces v Hv) as (He & _ & Hpe).
  pose proof (rounded_significand_bounds v Hv) as Hs.
  destruct (_ <=? _); [done|]. intros [= <-].
  set (e := Z.log2 v - 52) in *. set (s := rounded_significand v) in *.
  assert (2 ≤ 2 ^ e).
  { change 2 with (2 ^ 1) at 1. apply Z.pow_le_mono_r; lia. }
  change (2 ^ 53) with (2 ^ 52 * 2). nia.
Qed.

Lemma round_magnitude_nonneg z : 0 ≤ z → number_nonneg (round_magnitude z).
Proof.
  intros Hz. destruct (Z.lt_ge_cases z (2 ^ 53)) as [Hlt|Hge].
  - by rewrite round_magnitude_small.
  - destruct (round_magnitude z) as [w|negative] eqn:E.
    + apply round_magnitude_large_ge in E; [|done]. cbn. lia.
    + rewrite round_magnitude_large in E by done.
      destruct (_ <=? _); by simplify_eq.
Qed.

(** A rounded value is a double: rounding it again changes nothing. *)
Lemma round_magnitude_idempotent v w :
  0 ≤ v → round_magnitude v = Finite w → round_magnitude w = Finite w.
Proof.
  intros Hv0 Hround. destruct (Z.lt_ge_cases v (2 ^ 53)) as [Hlt|Hge].
  { rewrite round_magnitude_small in Hround by done. simplify_eq.
    by apply round_magnitude_small. }
  pose proof (round_magnitude_large_ge v w Hge Hround) as Hw.
  rewrite round_magnitude_large in Hround by done.
  destruct (round_magnitude_pieces v Hge) as (He & _ & Hpe).
  pose proof (rounded_significand_bounds v Hge) as Hs.
  destruct (Z.leb_spec (2 ^ 1024) (rounded_significand v * 2 ^ (Z.log2 v - 52)))
    as [|Hfin]; [done|].
  injection Hround as <-.
  set (e := Z.log2 v - 52) in *. set (s := rounded_significand v) in *.
  rewrite round_magnitude_large by done.
  assert (s < 2 ^ 53 ∨ s = 2 ^ 53) as [Hlt|Heq] by lia.
  - assert (Z.log2 (s * 2 ^ e) = 52 + e) as Hlog.
    { rewrite Z.log2_mul_pow2 by lia.
      rewrite (Z.log2_unique s 52); lia. }
    assert (rounded_significand (s * 2 ^ e) = s) as Hs'.
    { unfold rounded_significand. rewrite Hlog.
      replace (52 + e - 52) with e by lia.
      rewrite Z.div_mul, Z.mod_mul by lia.
      assert (0 < 2 ^ (e - 1)) by (apply Z.pow_pos_nonneg; lia).
      destruct (Z.ltb_spec 0 (2 ^ (e - 1))); [done | lia]. }
    rewrite Hs', Hlog. replace (52 + e - 52) with e by lia.
    destruct (Z.leb_spec (2 ^ 1024) (s * 2 ^ e)); [lia | done].
  - assert (s * 2 ^ e = 2 ^ 52 * 2 ^ (e + 1)) as Hw'.
    { rewrite Heq, Z.pow_add_r by lia. change (2 ^ 53) with (2 ^ 52 * 2).
      change (2 ^ 1) with 2. lia. }
    assert (0 < 2 ^ (e + 1)) by (apply Z.pow_pos_nonneg; lia).
    assert (Z.log2 (s * 2 ^ e) = 53 + e) as Hlog.
    { rewrite Hw', Z.log2_mul_pow2 by lia. change (Z.log2 (2 ^ 52)) with 52. lia. }
    assert (rounded_significand (s * 2 ^ e) = 2 ^ 52) as Hs'.
    { unfold rounded_significand. rewrite Hlog.
      replace (53 + e - 52) with (e + 1) by lia. rewrite Hw'.
      rewrite Z.div_mul, Z.mod_mul by lia.
      replace (e + 1 - 1) with e by lia.
      destruct (Z.ltb_spec 0 (2 ^ e)); [done | lia]. }
    rewrite Hs', Hlog. replace (53 + e - 52) with (e + 1) by lia.
    rewrite <- Hw'.
    destruct (Z.leb_spec (2 ^ 1024) (s * 2 ^ e)); [lia | done].
Qed.

(** ** parseInt on captures *)

Lemma digit_not_space_sign c :
  is_digit c = true →
  is_space c = false ∧ c ≠ "-"%char ∧ c ≠ "+"%char.
Proof.
  destruct c as [[] [] [] [] [] [] [] []]; vm_compute; intros H;
    try discriminate H; split_and!; congruence.
Qed.

Lemma take_while_digit_run ds : forallb is_digit ds = true → take_while is_digit ds = ds.
Proof.
  intros H. rewrite <- (app_nil_r ds) at 1. rewrite take_while_all by done.
  simpl. apply app_nil_r.
Qed.

Lemma parseInt_digit_run ds :
  digit_run ds → parseInt (Some ds) = Some (round_double (digits_value ds)).
Proof.
  intros [Hne Hall]. destruct ds as [|c ds]; [done|].
  pose proof Hall as Hall'. simpl in Hall'. apply andb_prop in Hall' as [Hc _].
  destruct (digit_not_space_sign c Hc) as (Hsp & Hm & Hp).
  unfold parseInt. cbn [to_string drop_while]. rewrite Hsp.
  assert (match c :: ds with
          | "-"%char :: t => (-1, t)
          | "+"%char :: t => (1, t)
          | _ => (1, c :: ds)
          end = (1, c :: ds)) as ->.
  { destruct (Ascii.eqb_spec c "-"); [done|].
    destruct (Ascii.eqb_spec c "+"); [done|].
    destruct c as [[] [] [] [] [] [] [] []]; done. }
  rewrite take_while_digit_run by done.
  do 2 f_equal. lia.
Qed.

Lemma parseInt_undefined : parseInt None = None.
Proof. reflexivity. Qed.

Lemma or_zero_Some v : or_zero (Some v) = v.
Proof.
  destruct v as [z|negative]; [|done].
  unfold or_zero. destruct (Z.eqb_spec z 0); congruence.
Qed.

Lemma capture_value segs :
  Forall digit_run segs → or_zero (parseInt (last segs)) = last_number segs.
Proof.
  intros H. unfold last_number. destruct (last segs) as [ds|] eqn:E; [|done].
  rewrite parseInt_digit_run, or_zero_Some; [done|].
  rewrite Forall_forall in H. apply H. by apply last_Some_elem_of.
Qed.

(** ** Reading the captures back *)

Lemma lookup_set_last_ne u o i segs (caps : Captures) j :
  j ≠ o → j ≠ i → set_last u o i segs caps !! j = caps !! j.
Proof.
  intros Ho Hi. unfold set_last. destruct (last segs); [|done].
  rewrite !lookup_insert_ne by done. unfold clear_groups. simpl.
  by rewrite !lookup_delete_ne by done.
Qed.

Lemma lookup_set_last_inner u o i segs (caps : Captures) :
  o ≠ i → caps !! i = None → set_last u o i segs caps !! i = last segs.
Proof.
  intros Hoi Hc. unfold set_last. destruct (last segs); [|done].
  rewrite lookup_insert_ne by done. by rewrite lookup_insert_eq.
Qed.

Lemma scan_duration_captures hs ms ss :
  let caps := set_last "s" 5 6 ss (set_last "m" 3 4 ms (set_last "h" 1 2 hs ∅)) in
  caps !! 2%nat = last hs ∧ caps !! 4%nat = last ms ∧ caps !! 6%nat = last ss.
Proof.
  cbn zeta. split_and!.
  - rewrite !lookup_set_last_ne by done. by apply lookup_set_last_inner.
  - rewrite lookup_set_last_ne by done. apply lookup_set_last_inner; [done|].
    by rewrite lookup_set_last_ne.
  - apply lookup_set_last_inner; [done|]. by rewrite !lookup_set_last_ne.
Qed.

Lemma scan_duration_render hs ms ss :
  Forall digit_run hs → Forall digit_run ms → Forall digit_run ss →
  scan_duration (render "h" hs ++ render "m" ms ++ render "s" ss)
  = Some (set_last "s" 5 6 ss (set_last "m" 3 4 ms (set_last "h" 1 2 hs ∅))).
Proof.
  intros Hh Hm Hs. unfold scan_duration.
  rewrite scan_segments_render; [|done|done| |done].
  2:{ apply seg_split_render_other; [done|done|done|done|].
      rewrite <- (app_nil_r (render "s" ss)).
      by apply seg_split_render_other. }
  rewrite scan_segments_render; [|done|done| |done].
  2:{ rewrite <- (app_nil_r (render "s" ss)).
      by apply seg_split_render_other. }
  rewrite <- (app_nil_r (render "s" ss)).
  rewrite scan_segments_render; [done|done|done|done|done].
Qed.

Lemma scan_duration_sound l caps :
  scan_duration l = Some caps →
  ∃ hs ms ss, Forall digit_run hs ∧ Forall digit_run ms ∧ Forall digit_run ss ∧
    l = render "h" hs ++ render "m" ms ++ render "s" ss.
Proof.
  unfold scan_duration. intros H.
  destruct (scan_segments "h" (length l) l) as [hs r1] eqn:E1.
  destruct (scan_segments "m" (length r1) r1) as [ms r2] eqn:E2.
  destruct (scan_segments "s" (length r2) r2) as [ss r3] eqn:E3.
  destruct r3; [|done].
  apply scan_segments_sound in E1 as (-> & H1 & _); [|done].
  apply scan_segments_sound in E2 as (-> & H2 & _); [|done].
  apply scan_segments_sound in E3 as (-> & H3 & _); [|done].
  exists hs, ms, ss. by rewrite app_nil_r.
Qed.

(** What [parseTimeString] returns on the language of its pattern. *)
Lemma parseTimeString_segments (timeStamp : string) hs ms ss :
  Forall digit_run hs → Forall digit_run ms → Forall digit_run ss →
  list_ascii_of_string timeStamp
  = render "h" hs ++ render "m" ms ++ render "s" ss →
  parseTimeString timeStamp
  = mkDuration (last_number hs) (last_number ms) (last_number ss).
Proof.
  intros Hh Hm Hs Heq. unfold parseTimeString.
  destruct (String.eqb_spec timeStamp "") as [->|_].
  - simpl in Heq. symmetry in Heq.
    apply app_eq_nil in Heq as [Eh [Em Es]%app_eq_nil].
    assert (∀ u segs, Forall digit_run segs → render u segs = [] → segs = []) as Hnil.
    { intros u [|ds segs] Hf; [done|]. unfold render. simpl.
      destruct ds; [|done]. apply Forall_cons in Hf as [[] _]. done. }
    by rewrite (Hnil _ hs Hh Eh), (Hnil _ ms Hm Em), (Hnil _ ss Hs Es).
  - rewrite match_durationRegex, Heq, scan_duration_render by done.
    destruct (scan_duration_captures hs ms ss) as (-> & -> & ->).
    by rewrite !capture_value.
Qed.

Lemma parseTimeString_no_match (timeStamp : string) :
  match_anchored durationRegex timeStamp = None →
  parseTimeString timeStamp = mkDuration 0 0 0.
Proof.
  intros H. unfold parseTimeString. rewrite H. by destruct (String.eqb _ _).
Qed.


(** ** Decimal numerals *)

Lemma digit_char_spec d :
  0 ≤ d < 10 → is_digit (digit_char d) = true ∧ digit_value (digit_char d) = d.
Proof.
  intros Hd.
  assert (d = 0 ∨ d = 1 ∨ d = 2 ∨ d = 3 ∨ d = 4 ∨ d = 5 ∨ d = 6 ∨ d = 7
          ∨ d = 8 ∨ d = 9) as Hcases by lia.
  repeat (destruct Hcases as [->|Hcases]; [by vm_compute|]).
  subst d. by vm_compute.
Qed.

Lemma digits_value_snoc l c :
  digits_value (l ++ [c]) = 10 * digits_value l + digit_value c.
Proof. unfold digits_value. by rewrite fold_left_app. Qed.

Lemma digit_char_nonzero d : 0 < d < 10 → digit_char d ≠ "0"%char.
Proof.
  intros Hd Heq. destruct (digit_char_spec d) as [_ Hv]; [lia|].
  rewrite Heq in Hv. vm_compute in Hv. lia.
Qed.

Lemma digits_fuel_spec fuel : ∀ n acc,
  0 ≤ n < 2 ^ Z.of_nat (S fuel) →
  ∃ l, digits_fuel (S fuel) n acc = l ++ acc ∧ digit_run l
       ∧ digits_value l = n ∧ (0 < n → head l ≠ Some "0"%char).
Proof.
  induction fuel as [|fuel IH]; intros n acc Hn.
  - cbn [digits_fuel]. change (2 ^ Z.of_nat 1) with 2 in Hn.
    assert (n / 10 = 0) as -> by (apply Z.div_small; lia).
    rewrite Z.mod_small by lia. cbn [Z.eqb].
    destruct (digit_char_spec n) as [Hd Hv]; [lia|].
    exists [digit_char n]. split_and!; [reflexivity| | |].
    + split; [discriminate|]. cbn [forallb]. rewrite Hd. reflexivity.
    + unfold digits_value. cbn [fold_left]. lia.
    + intros Hpos [= Heq]. by apply (digit_char_nonzero n); [lia|].
  - remember (S fuel) as fuel' eqn:Ef. cbn [digits_fuel].
    pose proof (Z.mod_pos_bound n 10 ltac:(lia)) as Hm.
    pose proof (Z.div_mod n 10 ltac:(lia)) as Hdm.
    destruct (digit_char_spec (n mod 10) Hm) as [Hd Hv].
    destruct (Z.eqb_spec (n / 10) 0) as [Hq|Hq].
    + exists [digit_char (n mod 10)]. split_and!; [reflexivity| | |].
      * split; [discriminate|]. cbn [forallb]. rewrite Hd. reflexivity.
      * unfold digits_value. cbn [fold_left]. rewrite Hv. lia.
      * intros Hpos [= Heq]. by apply (digit_char_nonzero (n mod 10)); [lia|].
    + subst fuel'.
      assert (0 < n / 10) as Hpos'
        by (pose proof (Z.div_pos n 10 ltac:(lia) ltac:(lia)); lia).
      destruct (IH (n / 10) (digit_char (n mod 10) :: acc))
        as (l & El & [Hne Hall] & Hl & Hhead).
      { split; [lia|].
        rewrite Nat2Z.inj_succ, Z.pow_succ_r in Hn by lia.
        apply Z.div_lt_upper_bound; lia. }
      exists (l ++ [digit_char (n mod 10)]). split_and!.
      * rewrite El. rewrite <- app_assoc. reflexivity.
      * split; [by destruct l|].
        rewrite forallb_app, Hall. cbn [forallb]. rewrite Hd. reflexivity.
      * rewrite digits_value_snoc, Hl, Hv. lia.
      * intros _. destruct l as [|c l]; [done|]. by apply Hhead.
Qed.

(** [digits_of n] is the decimal numeral of [n]: digits only, of value [n],
    and without a leading zero unless [n] is 0. *)
Lemma digits_of_spec n :
  0 ≤ n →
  digit_run (digits_of n) ∧ digits_value (digits_of n) = n
  ∧ (0 < n → head (digits_of n) ≠ Some "0"%char).
Proof.
  intros Hn. unfold digits_of.
  destruct (digits_fuel_spec (Z.to_nat (Z.log2 n)) n [])
    as (l & -> & Hr & Hv & Hh).
  - split; [done|]. rewrite Nat2Z.inj_succ, Z2Nat.id by apply Z.log2_nonneg.
    destruct (Z.eq_dec n 0) as [->|Hnz]; [done|].
    apply Z.log2_spec. lia.
  - by rewrite app_nil_r.
Qed.

Lemma list_ascii_of_string_app a b :
  list_ascii_of_string (a +:+ b)
  = list_ascii_of_string a ++ list_ascii_of_string b.
Proof. induction a as [|c a IH]; simpl; [done|]. by rewrite IH. Qed.

Lemma last_value_singleton ds : last_value [ds] = digits_value ds.
Proof. reflexivity. Qed.

(** ** The documented grammar inside the language of the pattern *)

Lemma optional_segment_render u seg :
  optional_segment u seg = render u (option_list seg).
Proof. destruct seg; unfold render; simpl; [by rewrite app_nil_r | done]. Qed.

Lemma optional_run_Forall seg : optional_run seg → Forall digit_run (option_list seg).
Proof. destruct seg; simpl; intros H; [constructor; [done | constructor] | constructor]. Qed.


Lemma spec_grammar_hours_once (timeStamp : string) :
  spec_grammar timeStamp →
  let l := list_ascii_of_string timeStamp in
  (length (scan_segments "h" (length l) l).1 ≤ 1)%nat.
Proof.
  intros (h & m & s & Hh & Hm & Hs & Heq). cbn zeta. rewrite Heq.
  rewrite !optional_segment_render.
  rewrite scan_segments_render; [|done|by apply optional_run_Forall| |done].
  - destruct h; simpl; lia.
  - apply seg_split_render_other; [done|done|done|by apply optional_run_Forall|].
    rewrite <- (app_nil_r (render "s" _)).
    apply seg_split_render_other; [done|done|done|by apply optional_run_Forall|done].
Qed.

Lemma star_grammar_scan (timeStamp : string) :
  star_grammar timeStamp →
  is_Some (scan_duration (list_ascii_of_string timeStamp)).
Proof.
  intros (hs & ms & ss & Hh & Hm & Hs & ->).
  rewrite scan_duration_render by done. by eexists.
Qed.

(** ** getThresholdExpression *)

Lemma removeByName_not_elem name (ls : Labels) :
  name ∉ (removeByName name ls).*1.
Proof.
  unfold removeByName. intros ([n v] & Heq & Hin)%list_elem_of_fmap.
  apply list_elem_of_filter in Hin as [Hne _]. simpl in *. congruence.
Qed.

Lemma lookup_new_Labels (st : Store) :
  (new_Labels st).2 !! (new_Labels st).1 = Some [].
Proof. unfold new_Labels. simpl. by rewrite lookup_app_r, Nat.sub_diag. Qed.


(** An expression is extracted from as the plain nodes that [instanceof]
    sees. *)
Lemma getThresholdExpression_tested exp operator lh rh name labels v
    (st : Store) :
  as_base exp = BinaryOperation operator lh rh →
  as_base lh = InstantSelector name labels →
  as_base rh = Scalar v →
  getThresholdExpression exp st
  = getThresholdExpression
      (BinaryOperation operator (InstantSelector name labels) (Scalar v)) st.
Proof.
  intros Hexp Hlh Hrh. unfold getThresholdExpression.
  by rewrite Hexp, Hlh, Hrh.
Qed.

Lemma getThresholdExpression_untested exp (st : Store) :
  passes_tests exp = false → (getThresholdExpression exp st).1 = None.
Proof.
  unfold passes_tests, getThresholdExpression.
  destruct (as_base exp) as [operator lh rh| | | |]; try done.
  destruct (as_base lh) as [| name labels | | |]; try done.
  destruct (as_base rh) as [| | v | |]; try done.
  destruct operator as [symbol|c]; [|done].
  intros _. cbn. by destruct labels.
Qed.

(** ** Doubles and their numerals *)

Lemma round_double_small z : 0 ≤ z < 2 ^ 53 → round_double z = Finite z.
Proof.
  intros [H0 H1]. unfold round_double.
  destruct (Z.ltb_spec z 0); [lia|]. by apply round_magnitude_small.
Qed.

Lemma round_double_nonneg z : 0 ≤ z → number_nonneg (round_double z).
Proof.
  intros Hz. unfold round_double. destruct (Z.ltb_spec z 0); [lia|].
  by apply round_magnitude_nonneg.
Qed.

(** What [parseInt] returns on digits is a double. *)
Lemma round_double_representable v w :
  0 ≤ v → round_double v = Finite w → representable w.
Proof.
  intros Hv Hround. pose proof (round_double_nonneg v Hv) as Hnn.
  rewrite Hround in Hnn. cbn in Hnn.
  unfold round_double in Hround. destruct (Z.ltb_spec v 0); [lia|].
  unfold representable, round_double. destruct (Z.ltb_spec w 0); [lia|].
  by apply (round_magnitude_idempotent v).
Qed.

Lemma reads_as_small z v : 0 ≤ z < 2 ^ 53 → reads_as z v = true → v = z.
Proof.
  intros [H0 H1]. unfold reads_as, round_double.
  destruct (Z.ltb_spec v 0) as [Hneg|Hpos].
  - destruct (round_magnitude (- v)) as [w|negative] eqn:E; [|done].
    cbn [negate]. intros Heq%Z.eqb_eq.
    destruct (Z.lt_ge_cases (- v) (2 ^ 53)) as [Hlt|Hge].
    + rewrite round_magnitude_small in E by done. simplify_eq. lia.
    + apply round_magnitude_large_ge in E; [|done]. lia.
  - destruct (round_magnitude v) as [w|negative] eqn:E; [|done].
    intros Heq%Z.eqb_eq. subst w.
    destruct (Z.lt_ge_cases v (2 ^ 53)) as [Hlt|Hge].
    + rewrite round_magnitude_small in E by done. by simplify_eq.
    + apply round_magnitude_large_ge in E; [|done]. lia.
Qed.

Lemma reads_as_round z v : reads_as z v = true → round_double v = Finite z.
Proof.
  unfold reads_as. destruct (round_double v) as [w|negative]; [|done].
  by intros ->%Z.eqb_eq.
Qed.

(** The search ends on a numeral that reads back as the number, or gives
    the number up as it is. *)
Lemma shortest_search_spec z len steps : ∀ k,
  reads_as z (shortest_search z len steps k) = true
  ∨ shortest_search z len steps k = z.
Proof.
  induction steps as [|steps IH]; intros k; [by right|].
  cbn [shortest_search].
  set (p := 10 ^ (len - k)). set (lo := z / p * p).
  destruct (reads_as z lo) eqn:Elo; destruct (reads_as z (lo + p)) eqn:Ehi;
    cbn [andb].
  - destruct (_ <=? _); by left.
  - by left.
  - by left.
  - apply IH.
Qed.

Lemma shortest_search_nonneg z len steps : ∀ k,
  0 ≤ z → 0 ≤ shortest_search z len steps k.
Proof.
  induction steps as [|steps IH]; intros k Hz; [done|].
  cbn [shortest_search].
  set (p := 10 ^ (len - k)).
  assert (0 ≤ p) as Hp by (apply Z.pow_nonneg; lia).
  assert (0 ≤ z / p * p) as Hlo.
  { destruct (Z.eq_dec p 0) as [->|Hnz]; [lia|].
    apply Z.mul_nonneg_nonneg; [apply Z.div_pos; lia | done]. }
  repeat match goal with |- context [if ?b then _ else _] => destruct b end;
    try lia.
  by apply IH.
Qed.

Lemma shortest_value_nonneg z : 0 ≤ z → 0 ≤ shortest_value z.
Proof. apply shortest_search_nonneg. Qed.

Lemma shortest_value_small z : 0 ≤ z < 2 ^ 53 → shortest_value z = z.
Proof.
  intros Hz. unfold shortest_value.
  destruct (shortest_search_spec z (Z.of_nat (length (digits_of z))) 17 1)
    as [Hr|Heq]; [|done].
  by apply reads_as_small.
Qed.

Lemma shortest_value_reads z :
  representable z → round_double (shortest_value z) = Finite z.
Proof.
  intros Hrep. unfold shortest_value.
  destruct (shortest_search_spec z (Z.of_nat (length (digits_of z))) 17 1)
    as [Hr|Heq].
  - by apply reads_as_round.
  - by rewrite Heq.
Qed.

(** ** Digit runs as numbers *)

Lemma digit_value_bounds c : is_digit c = true → 0 ≤ digit_value c ≤ 9.
Proof.
  unfold is_digit, digit_value. intros [H1 H2]%andb_prop.
  apply Nat.leb_le in H1, H2. lia.
Qed.

Lemma fold_digits_nonneg ds : ∀ acc,
  0 ≤ acc → forallb is_digit ds = true →
  0 ≤ fold_left (λ acc c, 10 * acc + digit_value c) ds acc.
Proof.
  induction ds as [|c ds IH]; intros acc Hacc Hall; [done|].
  cbn [forallb] in Hall. apply andb_prop in Hall as [Hc Hall].
  cbn [fold_left]. apply IH; [|done].
  pose proof (digit_value_bounds c Hc). lia.
Qed.

Lemma digits_value_nonneg ds : digit_run ds → 0 ≤ digits_value ds.
Proof. intros [_ Hall]. by apply fold_digits_nonneg. Qed.



Lemma last_number_nonneg segs :
  Forall digit_run segs → number_nonneg (last_number segs).
Proof.
  intros H. unfold last_number. destruct (last segs) as [ds|] eqn:E; [|done].
  rewrite Forall_forall in H.
  apply round_double_nonneg, digits_value_nonneg, H.
  by apply last_Some_elem_of.
Qed.

Lemma last_number_representable segs :
  Forall digit_run segs →
  match last_number segs with
  | Finite w => representable w
  | Infinity _ => True
  end.
Proof.
  intros H. unfold last_number. destruct (last segs) as [ds|] eqn:E.
  - rewrite Forall_forall in H.
    destruct (round_double (digits_value ds)) as [w|negative] eqn:Er; [|done].
    apply (round_double_representable (digits_value ds)); [|done].
    apply digits_value_nonneg, H. by apply last_Some_elem_of.
  - by apply round_double_small.
Qed.

(** ** Helper lemmas on durations *)

(** Either the fallback, or the numbers of the last segments. *)
Lemma parseTimeString_cases (timeStamp : string) :
  parseTimeString timeStamp = mkDuration 0 0 0
  ∨ ∃ hs ms ss,
      Forall digit_run hs ∧ Forall digit_run ms ∧ Forall digit_run ss
      ∧ parseTimeString timeStamp
        = mkDuration (last_number hs) (last_number ms) (last_number ss).
Proof.
  destruct (scan_duration (list_ascii_of_string timeStamp)) as [caps|] eqn:E.
  - right. apply scan_duration_sound in E as (hs & ms & ss & Hh & Hm & Hs & Heq).
    exists hs, ms, ss. split_and!; try done.
    by apply parseTimeString_segments.
  - left. apply parseTimeString_no_match. by rewrite match_durationRegex.
Qed.

Lemma parseTimeString_fields_nonneg (timeStamp : string) :
  number_nonneg (hours (parseTimeString timeStamp))
  ∧ number_nonneg (minutes (parseTimeString timeStamp))
  ∧ number_nonneg (seconds (parseTimeString timeStamp)).
Proof.
  destruct (parseTimeString_cases timeStamp)
    as [->|(hs & ms & ss & Hh & Hm & Hs & ->)]; [done|].
  cbn [hours minutes seconds]. split_and!; by apply last_number_nonneg.
Qed.

(** The fields of a parsed duration are doubles. *)
Lemma parseTimeString_fields_representable (timeStamp : string) :
  is_double (hours (parseTimeString timeStamp))
  ∧ is_double (minutes (parseTimeString timeStamp))
  ∧ is_double (seconds (parseTimeString timeStamp)).
Proof.
  destruct (parseTimeString_cases timeStamp)
    as [->|(hs & ms & ss & Hh & Hm & Hs & ->)].
  - cbn. split_and!; by apply round_double_small.
  - cbn [hours minutes seconds].
    split_and!; by apply last_number_representable.
Qed.

Lemma string_app_nil (s : string) : s +:+ "" = s.
Proof.
  induction s as [|c s IH]; [done|].
  change (String c s +:+ "") with (String c (s +:+ "")). by rewrite IH.
Qed.

(** A string that does not start with a digit is not in the language. *)
Lemma parseTimeString_nondigit_head (timeStamp : string) c r :
  list_ascii_of_string timeStamp = c :: r → is_digit c = false →
  parseTimeString timeStamp = mkDuration 0 0 0.
Proof.
  intros Heq Hc. apply parseTimeString_no_match.
  rewrite match_durationRegex, Heq. unfold scan_duration.
  assert (∀ u, seg_split u (c :: r) = None) as Hn.
  { intros u. unfold seg_split. cbn [take_while]. by rewrite Hc. }
  cbn [length scan_segments]. rewrite !Hn.
  cbn [length scan_segments]. rewrite !Hn.
  cbn [length scan_segments]. by rewrite !Hn.
Qed.

(** Digits without a unit are not in the language. *)
Lemma parseTimeString_digits_only (timeStamp : string) ds :
  list_ascii_of_string timeStamp = ds → digit_run ds →
  parseTimeString timeStamp = mkDuration 0 0 0.
Proof.
  intros Heq [Hne Hall]. apply parseTimeString_no_match.
  rewrite match_durationRegex, Heq. unfold scan_duration.
  assert (∀ u fuel, scan_segments u fuel ds = ([], ds)) as Hn.
  { assert (drop_while is_digit ds = []) as Hd.
    { rewrite <- (app_nil_r ds). by rewrite drop_while_all. }
    intros u [|fuel]; [done|]. cbn [scan_segments]. unfold seg_split.
    rewrite Hd. by destruct (take_while is_digit ds). }
  rewrite !Hn. by destruct ds.
Qed.

(** The language has digits and the three unit letters only. *)
Lemma render_chars u segs c :
  Forall digit_run segs → c ∈ render u segs → is_digit c = true ∨ c = u.
Proof.
  intros Hsegs. unfold render. induction Hsegs as [|ds segs [_ Hall] _ IH];
    cbn [map concat]; [by intros ?%elem_of_nil|].
  rewrite !elem_of_app. intros [[Hc|Hc]|Hc].
  - left. rewrite forallb_forall in Hall. by apply Hall, list_elem_of_In.
  - right. by apply list_elem_of_singleton in Hc.
  - by apply IH.
Qed.

Lemma parseTimeString_bad_char (timeStamp : string) c :
  c ∈ list_ascii_of_string timeStamp →
  is_digit c = false → c ≠ "h"%char → c ≠ "m"%char → c ≠ "s"%char →
  parseTimeString timeStamp = mkDuration 0 0 0.
Proof.
  intros Hin Hd Hh Hm Hs. apply parseTimeString_no_match.
  rewrite match_durationRegex.
  destruct (scan_duration (list_ascii_of_string timeStamp)) as [caps|] eqn:E;
    [|done].
  apply scan_duration_sound in E as (hs & ms & ss & Fh & Fm & Fs & Heq).
  rewrite Heq, !elem_of_app in Hin.
  destruct Hin as [Hin|[Hin|Hin]];
    eapply render_chars in Hin; try done; destruct Hin; congruence.
Qed.

(** ** The strings of numbers *)

Lemma number_to_string_plain n :
  0 ≤ n < 10 ^ 21 →
  number_to_string (Some (Finite n))
  = string_of_list_ascii (digits_of (shortest_value n)).
Proof.
  intros [H0 H1]. unfold number_to_string, magnitude_to_string.
  destruct (Z.ltb_spec n 0); [lia|].
  destruct (Z.ltb_spec n (10 ^ 21)); [done | lia].
Qed.

Lemma number_to_string_small n :
  0 ≤ n < 2 ^ 53 →
  number_to_string (Some (Finite n)) = string_of_list_ascii (digits_of n).
Proof.
  intros Hn. rewrite number_to_string_plain by lia.
  by rewrite shortest_value_small.
Qed.

Lemma list_of_numeral n (u : string) :
  0 ≤ n < 10 ^ 21 →
  list_ascii_of_string (number_to_string (Some (Finite n)) +:+ u)
  = digits_of (shortest_value n) ++ list_ascii_of_string u.
Proof.
  intros Hn. rewrite number_to_string_plain by done.
  by rewrite list_ascii_of_string_app, list_ascii_of_string_of_list_ascii.
Qed.

(** Below 10^21 the numeral of a double is a run of digits that
    [parseInt] reads back as the double. *)
Lemma numeral_reads_back n :
  0 ≤ n → representable n →
  digit_run (digits_of (shortest_value n))
  ∧ last_number [digits_of (shortest_value n)] = Finite n.
Proof.
  intros Hn Hrep.
  destruct (digits_of_spec (shortest_value n) (shortest_value_nonneg n Hn))
    as (Hrun & Hval & _).
  split; [done|]. unfold last_number. cbn [last].
  rewrite Hval. by apply shortest_value_reads.
Qed.

Lemma parseTimeString_numeral_hours n :
  0 ≤ n < 10 ^ 21 → representable n →
  parseTimeString (number_to_string (Some (Finite n)) +:+ "h")
  = mkDuration n 0 0.
Proof.
  intros Hn Hrep. destruct (numeral_reads_back n) as [Hrun Hval]; [lia|done|].
  rewrite (parseTimeString_segments _ [digits_of (shortest_value n)] [] []);
    [by rewrite Hval | by apply Forall_singleton | constructor | constructor |].
  rewrite list_of_numeral by done. unfold render. simpl. by rewrite !app_nil_r.
Qed.

Lemma parseTimeString_numeral_minutes n :
  0 ≤ n < 10 ^ 21 → representable n →
  parseTimeString (number_to_string (Some (Finite n)) +:+ "m")
  = mkDuration 0 n 0.
Proof.
  intros Hn Hrep. destruct (numeral_reads_back n) as [Hrun Hval]; [lia|done|].
  rewrite (parseTimeString_segments _ [] [digits_of (shortest_value n)] []);
    [by rewrite Hval | constructor | by apply Forall_singleton | constructor |].
  rewrite list_of_numeral by done. unfold render. simpl. by rewrite !app_nil_r.
Qed.

Lemma parseTimeString_numeral_seconds n :
  0 ≤ n < 10 ^ 21 → representable n →
  parseTimeString (number_to_string (Some (Finite n)) +:+ "s")
  = mkDuration 0 0 n.
Proof.
  intros Hn Hrep. destruct (numeral_reads_back n) as [Hrun Hval]; [lia|done|].
  rewrite (parseTimeString_segments _ [] [] [digits_of (shortest_value n)]);
    [by rewrite Hval | constructor | constructor | by apply Forall_singleton |].
  rewrite list_of_numeral by done. unfold render. simpl. by rewrite !app_nil_r.
Qed.

(** What the [for] field of a form reads back as, when the number of the
    form is not a positive integer or its unit is blank. *)
Lemma parseTimeString_NaN (u : string) :
  parseTimeString (number_to_string None +:+ u) = mkDuration 0 0 0.
Proof.
  apply (parseTimeString_nondigit_head _ "N"%char
           (list_ascii_of_string ("aN" +:+ u))); reflexivity.
Qed.

Lemma parseTimeString_infinite negative (u : string) :
  parseTimeString (number_to_string (Some (Infinity negative)) +:+ u)
  = mkDuration 0 0 0.
Proof.
  destruct negative.
  - eapply (parseTimeString_nondigit_head _ "-"%char); reflexivity.
  - eapply (parseTimeString_nondigit_head _ "I"%char); reflexivity.
Qed.

Lemma parseTimeString_negative n (u : string) :
  n < 0 →
  parseTimeString (number_to_string (Some (Finite n)) +:+ u)
  = mkDuration 0 0 0.
Proof.
  intros Hn. unfold number_to_string.
  destruct (Z.ltb_spec n 0) as [_|?]; [|lia].
  eapply (parseTimeString_nondigit_head _ "-"%char); reflexivity.
Qed.

Lemma exponent_notation_plus ds :
  exponent_notation ds = [] ∨ "+"%char ∈ exponent_notation ds.
Proof.
  unfold exponent_notation.
  destruct (rev (strip_zeros (rev ds))) as [|d rest]; [by left|right].
  apply elem_of_cons. right. rewrite !elem_of_app. right. left.
  cbn. set_solver.
Qed.

(** A number without a unit letter is not a duration. *)
Lemma parseTimeString_number_only (x : option number) :
  parseTimeString (number_to_string x +:+ "") = mkDuration 0 0 0.
Proof.
  destruct x as [[n|negative]|];
    [|apply parseTimeString_infinite|apply parseTimeString_NaN].
  destruct (Z.lt_ge_cases n 0) as [Hneg|Hpos];
    [by apply parseTimeString_negative|].
  destruct (Z.lt_ge_cases n (10 ^ 21)) as [Hlt|Hge].
  - destruct (digits_of_spec (shortest_value n) (shortest_value_nonneg n Hpos))
      as (Hrun & _ & _).
    apply (parseTimeString_digits_only _ (digits_of (shortest_value n)));
      [|done].
    rewrite list_of_numeral by done. apply app_nil_r.
  - rewrite string_app_nil. unfold number_to_string, magnitude_to_string.
    destruct (Z.ltb_spec n 0); [lia|].
    destruct (Z.ltb_spec n (10 ^ 21)); [lia|].
    destruct (exponent_notation_plus (digits_of (shortest_value n)))
      as [->|Hplus]; [done|].
    apply (parseTimeString_bad_char _ "+"%char); try done.
    by rewrite list_ascii_of_string_of_list_ascii.
Qed.

Lemma getMostSignificantTime_zero :
  getMostSignificantTime (mkDuration 0 0 0) = mkTime 0 "s".
Proof. reflexivity. Qed.

Lemma truthy_false n : truthy n = false → n = Finite 0.
Proof.
  destruct n as [z|negative]; [|done]. cbn.
  destruct (Z.eqb_spec z 0); [by subst | done].
Qed.

Lemma parseInt_number_to_string n :
  - 10 ^ 21 < n < 10 ^ 21 → representable n →
  parseInt (Some (list_ascii_of_string (number_to_string (Some (Finite n)))))
  = Some (Finite n).
Proof.
  intros Hn Hrep. unfold number_to_string, magnitude_to_string.
  destruct (Z.ltb_spec n 0) as [Hneg|Hpos].
  - destruct (Z.ltb_spec (- n) (10 ^ 21)); [|lia].
    assert (representable (- n)) as Hrep'.
    { unfold representable, round_double in *.
      destruct (Z.ltb_spec n 0); [|lia]. destruct (Z.ltb_spec (- n) 0); [lia|].
      destruct (round_magnitude (- n)) as [w|negative]; [|done].
      cbn in Hrep. f_equal. injection Hrep. lia. }
    destruct (digits_of_spec (shortest_value (- n))
                (shortest_value_nonneg (- n) ltac:(lia)))
      as ([Hne Hall] & Hval & _).
    cbn [list_ascii_of_string]. rewrite list_ascii_of_string_of_list_ascii.
    unfold parseInt. cbn [to_string drop_while].
    change (is_space "-") with false. cbv iota.
    rewrite take_while_digit_run by done.
    destruct (digits_of (shortest_value (- n))) as [|c ds] eqn:E; [done|].
    rewrite Hval. f_equal.
    replace (-1 * shortest_value (- n)) with (- shortest_value (- n)) by lia.
    pose proof (shortest_value_reads (- n) Hrep') as Hread.
    pose proof (shortest_value_nonneg (- n) ltac:(lia)) as Hnn.
    unfold round_double in *.
    destruct (Z.ltb_spec (shortest_value (- n)) 0); [lia|].
    destruct (Z.ltb_spec (- shortest_value (- n)) 0) as [_|Hz].
    + rewrite Z.opp_involutive, Hread. cbn. f_equal. lia.
    + assert (shortest_value (- n) = 0) as Hzero by lia. rewrite Hzero in *.
      cbn in Hread. rewrite round_magnitude_small in Hread by done.
      injection Hread. lia.
  - destruct (Z.ltb_spec n (10 ^ 21)); [|lia].
    rewrite list_ascii_of_string_of_list_ascii.
    destruct (digits_of_spec (shortest_value n) (shortest_value_nonneg n Hpos))
      as (Hrun & Hval & _).
    rewrite parseInt_digit_run, Hval by done.
    by rewrite shortest_value_reads.
Qed.

(** * The claims *)

(** ** Duration codec *)

(** C3, as amended.  Every string outside the language of the pattern
    [(\d+h)*(\d+m)*(\d+s)*] (units out of order, a character that is neither
    a digit nor a unit, a unit without digits) is parsed to the zero
    duration; [parseTimeString] is a total function, so nothing is raised. *)
Theorem parseTimeString_fallback (timeStamp : string) :
  ¬ star_grammar timeStamp →
  parseTimeString timeStamp = mkDuration 0 0 0.
Proof.
  intros Hnot. apply parseTimeString_no_match.
  rewrite match_durationRegex.
  destruct (scan_duration (list_ascii_of_string timeStamp)) as [caps|] eqn:E;
    [|done].
  exfalso. apply Hnot.
  apply scan_duration_sound in E as (hs & ms & ss & Hh & Hm & Hs & Heq).
  by exists hs, ms, ss.
Qed.

Lemma parseTimeString_fallback_witness :
  parseTimeString "garbage" = mkDuration 0 0 0
  ∧ parseTimeString "5m1h" = mkDuration 0 0 0.
Proof.
  split; apply parseTimeString_fallback;
    intros H%star_grammar_scan; vm_compute in H; by destruct H.
Defined.

(** C3, as stated, fails: ["1h2h30m"] is not in the documented grammar
    [(\d+h)?(\d+m)?(\d+s)?], yet it is not parsed to the zero duration. *)
Lemma parseTimeString_fallback_counterexample :
  ¬ spec_grammar "1h2h30m"
  ∧ parseTimeString "1h2h30m" = mkDuration 2 30 0
  ∧ parseTimeString "1h2h30m" ≠ mkDuration 0 0 0.
Proof.
  split_and!.
  - intros H%spec_grammar_hours_once. vm_compute in H. lia.
  - by vm_compute.
  - by vm_compute.
Qed.






(** C7.  [getMostSignificantTime] is the documented reduction: the
    magnitude and unit of the first non-zero field in the order hours,
    minutes, seconds, the fields after it being dropped, and magnitude 0
    with unit ["s"] when all three are zero. *)
Theorem getMostSignificantTime_reduces (d : Duration) :
  getMostSignificantTime d = reduceToMostSignificantUnit d
  ∧ getMostSignificantTime (mkDuration 2 30 15) = mkTime 2 "h"
  ∧ getMostSignificantTime (mkDuration 0 0 0) = mkTime 0 "s".
Proof.
  split_and!; [|done|done].
  unfold getMostSignificantTime, reduceToMostSignificantUnit, highest_nonzero.
  cbn [List.find fst].
  destruct (truthy (hours d)); [done|].
  destruct (truthy (minutes d)); [done|].
  destruct (truthy (seconds d)) eqn:Hs; [done|].
  by rewrite (truthy_false _ Hs).
Qed.

(** C8, as stated, fails: from 10^21 on a number is written in exponent
    notation.  The duration of 10^21 hours, which [parseTimeString] returns
    on ["1000000000000000000000h"], is reduced and written as ["1e+21h"],
    and [parseTimeString] reads that as the zero duration. *)
Lemma most_significant_round_trip_counterexample :
  let d := mkDuration (10 ^ 21) 0 0 in
  parseTimeString "1000000000000000000000h" = d
  ∧ single_unit d (10 ^ 21) "h"
  ∧ for_ (toAlertConfig (form_of_time (getMostSignificantTime d) blank_form))
    = "1e+21h"%string
  ∧ parseTimeString "1e+21h" = mkDuration 0 0 0
  ∧ mkDuration 0 0 0 ≠ d.
Proof.
  cbn zeta. split_and!.
  - by vm_compute.
  - by apply single_hours.
  - by vm_compute.
  - by vm_compute.
  - by vm_compute.
Qed.

(** C8, as amended.  For a duration with exactly one non-zero field, of
    magnitude [n] and unit [u], [n] being a positive number below 10^21,
    reducing it and writing the [for] field gives the numeral of [n] in
    plain digits followed by [u], and [parseTimeString] reads the duration
    back.  The numeral is the shortest one that reads as [n]; below 2^53 it
    is the decimal numeral of [n] itself, without a leading zero. *)
Theorem most_significant_round_trip (d : Duration) (n : Z) (u : string)
    (form : FormState) :
  single_unit d n u → 0 < n < 10 ^ 21 → representable n →
  let formatted :=
    for_ (toAlertConfig (form_of_time (getMostSignificantTime d) form)) in
  let numeral := digits_of (shortest_value n) in
  formatted = string_of_list_ascii numeral +:+ u
  ∧ digit_run numeral
  ∧ round_double (digits_value numeral) = Finite n
  ∧ parseTimeString formatted = d
  ∧ (n < 2 ^ 53 →
     numeral = digits_of n
     ∧ digits_value numeral = n
     ∧ head numeral ≠ Some "0"%char).
Proof.
  intros Hd Hn Hrep. cbn zeta.
  destruct (digits_of_spec (shortest_value n)
              (shortest_value_nonneg n ltac:(lia))) as (Hrun & Hval & _).
  assert (getMostSignificantTime d = mkTime n u) as ->.
  { destruct Hd as [n Hnz|n Hnz|n Hnz];
      unfold getMostSignificantTime, truthy; cbn [hours minutes seconds];
      destruct (Z.eqb_spec n 0); done. }
  unfold toAlertConfig, form_of_time.
  cbn [for_ form_timeNumber form_timeUnit timeNumber timeUnit].
  split_and!.
  - by rewrite number_to_string_plain by lia.
  - done.
  - rewrite Hval. by apply shortest_value_reads.
  - destruct Hd as [n Hnz|n Hnz|n Hnz].
    + apply parseTimeString_numeral_hours; [lia | done].
    + apply parseTimeString_numeral_minutes; [lia | done].
    + apply parseTimeString_numeral_seconds; [lia | done].
  - intros Hsmall. rewrite shortest_value_small by lia.
    destruct (digits_of_spec n ltac:(lia)) as (_ & Hval' & Hhead).
    split_and!; [done | done | apply Hhead; lia].
Qed.

Lemma most_significant_round_trip_witness :
  let formatted :=
    for_ (toAlertConfig
            (form_of_time (getMostSignificantTime (mkDuration 0 5 0))
               blank_form)) in
  formatted = "5m"%string
  ∧ parseTimeString formatted = mkDuration 0 5 0.
Proof.
  destruct (most_significant_round_trip (mkDuration 0 5 0) 5 "m" blank_form)
    as (Hformat & _ & _ & Hparse & _).
  - apply single_minutes. lia.
  - lia.
  - reflexivity.
  - split; [by rewrite Hformat | exact Hparse].
Defined.

(** ** Threshold extraction *)

(** C4, as stated, fails: the source tests its operands with [instanceof],
    which an object of a subclass passes.  A comparison whose left operand
    is a range selector, an instance of a class that extends
    [InstantSelector], is not a comparison of an instant selector with a
    scalar, and yet a record is returned. *)
Lemma getThresholdExpression_shape_counterexample :
  let exp :=
    BinaryOperation (OperatorComparator CmpGt)
      (SubclassInstance "RangeSelector"
         (InstantSelector (Some "cpu_util"%string) (Some 0%nat)))
      (Scalar (Qmake 90 1)) in
  is_threshold_shape exp = false
  ∧ (getThresholdExpression exp cpu_util_store).1
    = Some (mkThreshold "cpu_util" 0%nat CmpGt (Qmake 90 1)).
Proof. split; reflexivity. Qed.

(** C4, as amended.  [getThresholdExpression] returns null on every
    expression that fails one of its tests: the expression an instance of
    [BinaryOperation], its left operand an instance of [InstantSelector],
    its right operand an instance of [Scalar] (instances of subclasses
    included), its operator a comparator.  On an expression that passes
    them it returns a record with the selector's name (the empty string
    when the selector has none), the comparator, the scalar, and as filters
    the selector's labels without the label [networkID], which therefore
    never occurs among them. *)
Theorem getThresholdExpression_shape (exp : Expression) (st : Store) :
  (passes_tests exp = false → (getThresholdExpression exp st).1 = None)
  ∧ (∀ c lh rh name labels v ls,
       as_base exp = BinaryOperation (OperatorComparator c) lh rh →
       as_base lh = InstantSelector name labels →
       as_base rh = Scalar v →
       selector_labels st labels = Some ls →
       ∃ t st',
         getThresholdExpression exp st = (Some t, st')
         ∧ metricName t = default "" name
         ∧ comparator t = c
         ∧ value t = v
         ∧ st' !! filters t = Some (removeByName "networkID" ls)
         ∧ "networkID" ∉ (removeByName "networkID" ls).*1).
Proof.
  split.
  - apply getThresholdExpression_untested.
  - intros c lh rh name labels v ls Hexp Hlh Hrh Hls.
    rewrite (getThresholdExpression_tested exp _ lh rh name labels v st)
      by done.
    destruct labels as [r|]; cbn in Hls |- *.
    + eexists _, _. split_and!; try reflexivity.
      * unfold call_removeByName. by rewrite list_lookup_alter_eq, Hls.
      * apply removeByName_not_elem.
    + injection Hls as <-.
      eexists _, _. split_and!; try reflexivity.
      * unfold call_removeByName. cbn [filters].
        by rewrite list_lookup_alter_eq, lookup_app_r, Nat.sub_diag.
      * apply removeByName_not_elem.
Qed.

Lemma getThresholdExpression_shape_witness :
  (getThresholdExpression (Scalar (Qmake 90 1)) cpu_util_store).1 = None
  ∧ ∃ t st',
      getThresholdExpression cpu_util_above_90 cpu_util_store = (Some t, st')
      ∧ metricName t = "cpu_util"%string
      ∧ comparator t = CmpGt
      ∧ value t = Qmake 90 1
      ∧ st' !! filters t = Some [("host", "a")]%string
      ∧ "networkID"%string ∉ [("host", "a")]%string.*1.
Proof.
  split.
  - apply (proj1 (getThresholdExpression_shape (Scalar (Qmake 90 1))
                    cpu_util_store)). reflexivity.
  - apply (proj2 (getThresholdExpression_shape cpu_util_above_90
                    cpu_util_store)
             CmpGt (InstantSelector (Some "cpu_util"%string) (Some 0%nat))
             (Scalar (Qmake 90 1))
             (Some "cpu_util"%string) (Some 0%nat) (Qmake 90 1)
             [("networkID", "abc"); ("host", "a")]%string);
      reflexivity.
Defined.

(** C5.  When the left operand is an instant selector and the right one a
    scalar but the operator is not a comparator (an arithmetic operator,
    say), [getThresholdExpression] returns null. *)
Theorem getThresholdExpression_not_comparator (operator : BinaryOperator)
    (name : option string) (labels : option ref) (v : Q) (st : Store) :
  (∀ c, operator ≠ OperatorComparator c) →
  (getThresholdExpression
     (BinaryOperation operator (InstantSelector name labels) (Scalar v)) st).1
  = None.
Proof.
  intros Hop. destruct operator as [symbol|c]; [|by destruct (Hop c)].
  cbn. by destruct labels.
Qed.

Lemma getThresholdExpression_not_comparator_witness :
  (getThresholdExpression
     (BinaryOperation (OperatorSymbol "+")
        (InstantSelector (Some "cpu_util"%string) (Some 0%nat))
        (Scalar (Qmake 90 1))) cpu_util_store).1
  = None.
Proof.
  apply (getThresholdExpression_not_comparator (OperatorSymbol "+")).
  intros c. discriminate.
Defined.



(** ** The parsing lifecycle *)

(** C1: what the hook does when the parser fails on a non-empty expression.
    The first render raises the warning once and later renders raise
    nothing; but the failure branch of the effect never sets the mode, which
    keeps its initial value [!thresholdEditorEnabled]: with the threshold
    editor enabled the editor is left in simple mode. *)
Theorem parse_failure_lifecycle
    (Parse : option string → option (Expression * Store))
    (source : string) (enabled : option bool) :
  no_expression (Some source) = false →
  Parse (Some source) = None →
  let props := mkProps (Some source) enabled in
  let '(h, events) := useThresholdExpressionEditorState Parse props None in
  events = [ParseCall (Some source); Snackbar parse_error_message "error"]
  ∧ warnings events = 1%nat
  ∧ advancedEditorMode h = not_enabled enabled
  ∧ useThresholdExpressionEditorState Parse props (Some h) = (h, []).
Proof.
  intros Hsrc Hparse. cbn zeta.
  unfold useThresholdExpressionEditorState at 1.
  cbn [expression thresholdEditorEnabled]. rewrite Hparse.
  cbn [new_Labels fmap option_fmap option_map].
  unfold effect. rewrite Hsrc. cbn [parsedExpression].
  split_and!; try reflexivity.
Qed.

Lemma parse_failure_lifecycle_witness :
  let props := mkProps (Some "cpu >"%string) (Some true) in
  let '(h, events) :=
    useThresholdExpressionEditorState failing_parser props None in
  events = [ParseCall (Some "cpu >"%string);
            Snackbar parse_error_message "error"]
  ∧ warnings events = 1%nat
  ∧ advancedEditorMode h = false
  ∧ useThresholdExpressionEditorState failing_parser props (Some h) = (h, []).
Proof.
  apply (parse_failure_lifecycle failing_parser "cpu >" (Some true));
    reflexivity.
Defined.

(** C2, as stated, fails: on the first render the memo calls the parser
    whatever the expression is, the empty string included. *)
Lemma empty_expression_counterexample :
  ¬ (∀ Parse props,
       no_expression (expression props) = true →
       parser_calls (useThresholdExpressionEditorState Parse props None).2
       = 0%nat).
Proof.
  intros H.
  specialize (H failing_parser (mkProps (Some ""%string) (Some true)) eq_refl).
  discriminate H.
Qed.

(** C2, as amended.  For an empty or absent expression the first render
    calls the parser once and ignores what it returns: no warning is
    raised, the mode is set to simple, and the threshold record is the
    initial one (metric name empty, comparator [==], value 0, no filter).
    Later renders change nothing. *)
Theorem empty_expression_lifecycle
    (Parse : option string → option (Expression * Store)) (props : Props) :
  no_expression (expression props) = true →
  let '(h, events) := useThresholdExpressionEditorState Parse props None in
  events = [ParseCall (expression props)]
  ∧ warnings events = 0%nat
  ∧ advancedEditorMode h = false
  ∧ metricName (thresholdExpression h) = ""%string
  ∧ comparator (thresholdExpression h) = CmpEq
  ∧ value (thresholdExpression h) = 0%Q
  ∧ store h !! filters (thresholdExpression h) = Some []
  ∧ useThresholdExpressionEditorState Parse props (Some h) = (h, []).
Proof.
  intros Hempty. unfold useThresholdExpressionEditorState at 1.
  destruct (Parse (expression props)) as [[exp st]|];
    cbn [new_Labels fmap option_fmap option_map fst];
    unfold effect; rewrite Hempty;
    (split_and!; try reflexivity).
  - cbn. by rewrite lookup_app_r, Nat.sub_diag.
  - cbn. by rewrite decide_True.
Qed.

Lemma empty_expression_lifecycle_witness :
  let props := mkProps None (Some false) in
  let '(h, events) :=
    useThresholdExpressionEditorState failing_parser props None in
  events = [ParseCall None]
  ∧ warnings events = 0%nat
  ∧ advancedEditorMode h = false
  ∧ metricName (thresholdExpression h) = ""%string
  ∧ comparator (thresholdExpression h) = CmpEq
  ∧ value (thresholdExpression h) = 0%Q
  ∧ store h !! filters (thresholdExpression h) = Some []
  ∧ useThresholdExpressionEditorState failing_parser props (Some h) = (h, []).
Proof.
  apply (empty_expression_lifecycle failing_parser (mkProps None (Some false))).
  reflexivity.
Defined.


(** * Further properties of the editor *)

(** From 10^21 on a number is written with an exponent, which is not a
    duration. *)
Lemma parseTimeString_exponent n (u : string) :
  10 ^ 21 ≤ n → u ∈ ["h"; "m"; "s"]%string →
  parseTimeString (number_to_string (Some (Finite n)) +:+ u)
  = mkDuration 0 0 0.
Proof.
  intros Hn Hu. unfold number_to_string, magnitude_to_string.
  destruct (Z.ltb_spec n 0); [lia|].
  destruct (Z.ltb_spec n (10 ^ 21)); [lia|].
  destruct (exponent_notation_plus (digits_of (shortest_value n)))
    as [->|Hplus].
  - repeat (apply elem_of_cons in Hu as [->|Hu]; [by vm_compute|]).
    by apply elem_of_nil in Hu.
  - apply (parseTimeString_bad_char _ "+"%char); try done.
    rewrite list_ascii_of_string_app, list_ascii_of_string_of_list_ascii.
    apply elem_of_app. by left.
Qed.

(** What [parseTimeString] reads in a number that [toAlertConfig] wrote. *)
Lemma parseTimeString_written_hours x :
  number_nonneg x → is_double x →
  parseTimeString (number_to_string (Some x) +:+ "h")
  = if below_1e21 x then mkDuration x 0 0 else mkDuration 0 0 0.
Proof.
  destruct x as [n|negative]; cbn [number_nonneg is_double below_1e21].
  - intros Hn Hrep. destruct (Z.ltb_spec n (10 ^ 21)).
    + by apply parseTimeString_numeral_hours.
    + apply parseTimeString_exponent; [done | set_solver].
  - intros -> _. apply parseTimeString_infinite.
Qed.

Lemma parseTimeString_written_minutes x :
  number_nonneg x → is_double x →
  parseTimeString (number_to_string (Some x) +:+ "m")
  = if below_1e21 x then mkDuration 0 x 0 else mkDuration 0 0 0.
Proof.
  destruct x as [n|negative]; cbn [number_nonneg is_double below_1e21].
  - intros Hn Hrep. destruct (Z.ltb_spec n (10 ^ 21)).
    + by apply parseTimeString_numeral_minutes.
    + apply parseTimeString_exponent; [done | set_solver].
  - intros -> _. apply parseTimeString_infinite.
Qed.

Lemma parseTimeString_written_seconds x :
  number_nonneg x → is_double x →
  parseTimeString (number_to_string (Some x) +:+ "s")
  = if below_1e21 x then mkDuration 0 0 x else mkDuration 0 0 0.
Proof.
  destruct x as [n|negative]; cbn [number_nonneg is_double below_1e21].
  - intros Hn Hrep. destruct (Z.ltb_spec n (10 ^ 21)).
    + by apply parseTimeString_numeral_seconds.
    + apply parseTimeString_exponent; [done | set_solver].
  - intros -> _. apply parseTimeString_infinite.
Qed.

Lemma getMostSignificantTime_written d :
  number_nonneg (hours d) → number_nonneg (minutes d) →
  number_nonneg (seconds d) →
  is_double (hours d) → is_double (minutes d) → is_double (seconds d) →
  parseTimeString
    (number_to_string (Some (timeNumber (getMostSignificantTime d)))
     +:+ timeUnit (getMostSignificantTime d))
  = if below_1e21 (timeNumber (getMostSignificantTime d))
    then keep_most_significant d else mkDuration 0 0 0.
Proof.
  intros Hh Hm Hs Dh Dm Ds.
  unfold getMostSignificantTime, keep_most_significant.
  destruct (truthy (hours d)); cbn [timeNumber timeUnit].
  { by apply parseTimeString_written_hours. }
  destruct (truthy (minutes d)); cbn [timeNumber timeUnit].
  { by apply parseTimeString_written_minutes. }
  by apply parseTimeString_written_seconds.
Qed.

(** ** Durations and the time fields of the form *)

(** X1.  Whatever the input string, [parseTimeString] returns a duration
    whose hours, minutes and seconds are all non-negative. *)
Theorem parseTimeString_never_negative (timeStamp : string) :
  number_nonneg (hours (parseTimeString timeStamp))
  ∧ number_nonneg (minutes (parseTimeString timeStamp))
  ∧ number_nonneg (seconds (parseTimeString timeStamp)).
Proof. apply parseTimeString_fields_nonneg. Qed.

(** X2.  [getMostSignificantTime] shows the number 0 only for the zero
    duration: a duration with a non-zero field is never reduced to 0, and
    the unit is always one of ["h"], ["m"], ["s"]. *)
Theorem getMostSignificantTime_zero_iff (d : Duration) :
  (timeNumber (getMostSignificantTime d) = 0 ↔ d = mkDuration 0 0 0)
  ∧ timeUnit (getMostSignificantTime d) ∈ ["h"; "m"; "s"]%string.
Proof.
  destruct d as [h m s]. unfold getMostSignificantTime.
  cbn [hours minutes seconds].
  destruct (truthy h) eqn:Hh; cbn [timeNumber timeUnit].
  { split; [|set_solver]. split; [by intros -> | by intros [= -> _ _]]. }
  apply truthy_false in Hh as ->.
  destruct (truthy m) eqn:Hm; cbn [timeNumber timeUnit].
  { split; [|set_solver]. split; [by intros -> | by intros [= -> _]]. }
  apply truthy_false in Hm as ->.
  split; [|set_solver]. split; [by intros -> | by intros [= ->]].
Qed.

(** X3.  Whatever rule is loaded (none, or one with any [for] string, even
    a malformed or missing one), the form gets a time number that is never
    NaN and never negative (it is a non-negative integer or, when the
    segment read is too large for a double, Infinity), and a time unit that
    is one of the non-blank options of the [timeUnits] menu. *)
Theorem fromAlertConfig_time_fields (warning : string)
    (rule : option StoredAlertConfig) :
  let form := fromAlertConfig warning rule in
  (∃ n, form_timeNumber form = Some n ∧ number_nonneg n ∧ is_double n)
  ∧ form_timeUnit form ∈ unit_value <$> timeUnits
  ∧ form_timeUnit form ≠ ""%string.
Proof.
  cbn zeta. destruct rule as [rule|].
  2:{ cbn. split_and!; [by exists (Finite 0) | set_solver | done]. }
  cbn [fromAlertConfig form_timeNumber form_timeUnit].
  set (d := parseTimeString (default ""%string (stored_for rule))).
  destruct (parseTimeString_fields_nonneg (default ""%string (stored_for rule)))
    as (Hh & Hm & Hs).
  destruct (parseTimeString_fields_representable
              (default ""%string (stored_for rule))) as (Dh & Dm & Ds).
  fold d in Hh, Hm, Hs, Dh, Dm, Ds.
  unfold getMostSignificantTime.
  destruct (truthy (hours d)); [|destruct (truthy (minutes d))];
    cbn [timeNumber timeUnit]; (split_and!; [by eexists | set_solver | done]).
Qed.

(** X4.  Loading a rule and writing it back keeps only the most significant
    non-zero unit of its duration, as long as that is below 10^21: the
    [for] string that is written parses to the stored duration with every
    lower field set to 0 (so ["1h30m"] is saved as one hour, and a
    malformed or missing [for] as zero seconds).  From 10^21 on the [for]
    string that is written is no duration, and parses to zero. *)
Theorem saved_duration_is_most_significant (warning : string)
    (rule : StoredAlertConfig) :
  let d := parseTimeString (default ""%string (stored_for rule)) in
  parseTimeString
    (for_ (toAlertConfig (fromAlertConfig warning (Some rule))))
  = if below_1e21 (timeNumber (getMostSignificantTime d))
    then keep_most_significant d else mkDuration 0 0 0.
Proof.
  cbn zeta.
  cbn [fromAlertConfig toAlertConfig for_ form_timeNumber form_timeUnit].
  destruct (parseTimeString_fields_nonneg (default ""%string (stored_for rule)))
    as (Hh & Hm & Hs).
  destruct (parseTimeString_fields_representable
              (default ""%string (stored_for rule))) as (Dh & Dm & Ds).
  by apply getMostSignificantTime_written.
Qed.

(** X5.  A form whose duration is a positive integer below 10^21 in hours,
    minutes or seconds survives being written to a rule and loaded again:
    every field comes back as it was, and the labels come back with the
    severity of the form added under the key [severity]. *)
Theorem form_round_trip (warning : string) (form : FormState) (n : Z) :
  form_timeNumber form = Some (Finite n) → 0 < n < 10 ^ 21 →
  representable n →
  form_timeUnit form ∈ ["h"; "m"; "s"]%string →
  fromAlertConfig warning (Some (as_stored (toAlertConfig form)))
  = with_labels (<["severity"%string := form_severity form]> (form_labels form))
      form.
Proof.
  intros Hnum Hn Hrep Hunit.
  destruct form as [name expression severity number unit description ls].
  cbn in Hnum, Hunit. subst number.
  unfold fromAlertConfig, as_stored, toAlertConfig, with_labels.
  cbn [stored_alert stored_expr stored_labels stored_for stored_annotations
       alert expr labels for_ annotations_description
       form_ruleName form_expression form_severity form_timeNumber
       form_timeUnit form_description form_labels default mbind option_bind].
  rewrite lookup_insert_eq, lookup_singleton_eq. cbn [default]. unfold id.
  assert (getMostSignificantTime
            (parseTimeString (number_to_string (Some (Finite n)) +:+ unit))
          = mkTime n unit) as ->; [|done].
  assert (truthy n = true) as Ht
    by (unfold truthy; destruct (Z.eqb_spec n 0); [lia | done]).
  apply elem_of_cons in Hunit as [->|Hunit].
  { rewrite parseTimeString_numeral_hours by (done || lia).
    unfold getMostSignificantTime. cbn [hours]. by rewrite Ht. }
  apply elem_of_cons in Hunit as [->|Hunit].
  { rewrite parseTimeString_numeral_minutes by (done || lia).
    unfold getMostSignificantTime. cbn [hours minutes].
    change (truthy 0) with false. cbv iota. by rewrite Ht. }
  apply list_elem_of_singleton in Hunit as ->.
  rewrite parseTimeString_numeral_seconds by (done || lia).
  unfold getMostSignificantTime. cbn [hours minutes seconds].
  by change (truthy 0) with false.
Qed.

Lemma form_round_trip_witness :
  fromAlertConfig "warning" (Some (as_stored (toAlertConfig five_minutes_form)))
  = with_labels
      (<["severity"%string := "major"%string]> {["team"%string := "sre"%string]})
      five_minutes_form.
Proof.
  apply (form_round_trip "warning" five_minutes_form 5);
    [reflexivity | lia | reflexivity | set_solver].
Defined.

Lemma reload_time_fields (warning : string) (form : FormState) :
  let t :=
    getMostSignificantTime
      (parseTimeString
         (number_to_string (form_timeNumber form) +:+ form_timeUnit form)) in
  let form' :=
    fromAlertConfig warning (Some (as_stored (toAlertConfig form))) in
  form_timeNumber form' = Some (timeNumber t)
  ∧ form_timeUnit form' = timeUnit t.
Proof. by split. Qed.

(** X6.  A form whose number is NaN (an emptied field), zero or negative,
    with any unit of the menu, is written to a [for] string that loads
    back as 0 seconds: the number and the unit that were chosen are lost. *)
Theorem non_positive_duration_reloads_as_zero_seconds (warning : string)
    (form : FormState) :
  (form_timeNumber form = None
   ∨ ∃ n, form_timeNumber form = Some n ∧ number_le_zero n) →
  form_timeUnit form ∈ unit_value <$> timeUnits →
  let form' :=
    fromAlertConfig warning (Some (as_stored (toAlertConfig form))) in
  form_timeNumber form' = Some (Finite 0) ∧ form_timeUnit form' = "s"%string.
Proof.
  intros Hnum Hunit. cbn zeta.
  destruct (reload_time_fields warning form) as [-> ->].
  assert (parseTimeString
            (number_to_string (form_timeNumber form) +:+ form_timeUnit form)
          = mkDuration 0 0 0) as ->; [|done].
  destruct Hnum as [->|([n|negative] & -> & Hn)];
    [apply parseTimeString_NaN | | apply parseTimeString_infinite].
  cbn in Hn.
  destruct (Z.eq_dec n 0) as [->|Hnz]; [|apply parseTimeString_negative; lia].
  cbn in Hunit.
  repeat (apply elem_of_cons in Hunit as [->|Hunit]; [by vm_compute|]).
  by apply elem_of_nil in Hunit.
Qed.

Lemma non_positive_duration_reloads_as_zero_seconds_witness :
  let form' :=
    fromAlertConfig "warning"
      (Some (as_stored (toAlertConfig emptied_number_form))) in
  form_timeNumber form' = Some (Finite 0) ∧ form_timeUnit form' = "s"%string.
Proof.
  apply (non_positive_duration_reloads_as_zero_seconds "warning"
           emptied_number_form); [by left | set_solver].
Defined.

(** X7.  With the blank unit of the menu chosen, the [for] string of the
    form has no unit letter and loads back as 0 seconds, whatever the
    number of the form is. *)
Theorem blank_unit_reloads_as_zero_seconds (warning : string)
    (form : FormState) :
  form_timeUnit form = ""%string →
  let form' :=
    fromAlertConfig warning (Some (as_stored (toAlertConfig form))) in
  form_timeNumber form' = Some (Finite 0) ∧ form_timeUnit form' = "s"%string.
Proof.
  intros Hunit. cbn zeta.
  destruct (reload_time_fields warning form) as [-> ->]. rewrite Hunit.
  by rewrite parseTimeString_number_only.
Qed.

Lemma blank_unit_reloads_as_zero_seconds_witness :
  let form' :=
    fromAlertConfig "warning"
      (Some (as_stored (toAlertConfig blank_unit_form))) in
  form_timeNumber form' = Some (Finite 0) ∧ form_timeUnit form' = "s"%string.
Proof.
  apply (blank_unit_reloads_as_zero_seconds "warning" blank_unit_form).
  reflexivity.
Defined.

(** X8.  The duration field reads back what it shows, for NaN and for every
    integer between -10^21 and 10^21: the text shown for the time number
    (nothing for NaN, the numeral in plain digits otherwise, with its sign)
    is parsed by the change handler to that same number.  At 10^21 this
    ends: the field shows ["1e+21"], which is read as 1. *)
Theorem timeNumber_input_round_trip (n : Z) :
  - 10 ^ 21 < n < 10 ^ 21 → representable n →
  timeNumber_of_input (timeNumber_value (Some (Finite n))) = Some (Finite n)
  ∧ timeNumber_of_input (timeNumber_value None) = None
  ∧ timeNumber_value (Some (Finite (10 ^ 21))) = "1e+21"%string
  ∧ timeNumber_of_input "1e+21" = Some (Finite 1).
Proof.
  intros Hn Hrep. split_and!.
  - by apply parseInt_number_to_string.
  - reflexivity.
  - by vm_compute.
  - by vm_compute.
Qed.

Lemma timeNumber_input_round_trip_witness :
  timeNumber_of_input (timeNumber_value (Some (Finite (-90)))) = Some (Finite (-90)).
Proof.
  apply (timeNumber_input_round_trip (-90)); [lia | reflexivity].
Defined.

(** X9.  Loading a rule that [toAlertConfig] wrote, or any rule with all
    its fields and a severity label, and writing it back leaves the name,
    the expression, the labels and the description as they were. *)
Theorem config_round_trip (warning : string) (cfg : AlertConfig) :
  is_Some (labels cfg !! "severity"%string) →
  let cfg' := toAlertConfig (fromAlertConfig warning (Some (as_stored cfg))) in
  alert cfg' = alert cfg
  ∧ expr cfg' = expr cfg
  ∧ labels cfg' = labels cfg
  ∧ annotations_description cfg' = annotations_description cfg.
Proof.
  intros [severity Hsev]. cbn zeta.
  unfold fromAlertConfig, as_stored, toAlertConfig.
  cbn [stored_alert stored_expr stored_labels stored_for stored_annotations
       alert expr labels for_ annotations_description
       form_ruleName form_expression form_severity form_timeNumber
       form_timeUnit form_description form_labels default mbind option_bind].
  rewrite Hsev, lookup_singleton_eq. cbn [default]. unfold id.
  split_and!; try reflexivity. by apply insert_id.
Qed.

Lemma config_round_trip_witness :
  let cfg := toAlertConfig five_minutes_form in
  let cfg' :=
    toAlertConfig (fromAlertConfig "warning" (Some (as_stored cfg))) in
  alert cfg' = alert cfg
  ∧ expr cfg' = expr cfg
  ∧ labels cfg' = labels cfg
  ∧ annotations_description cfg' = annotations_description cfg.
Proof.
  apply (config_round_trip "warning" (toAlertConfig five_minutes_form)).
  exists "major"%string. apply lookup_insert_eq.
Defined.

(** ** Threshold extraction and the store *)

Lemma removeByName_idempotent name (ls : Labels) :
  removeByName name (removeByName name ls) = removeByName name ls.
Proof.
  unfold removeByName. induction ls as [|l ls IH]; [done|].
  rewrite (filter_cons _ l ls). destruct (decide (l.1 ≠ name)) as [Hl|Hl].
  - rewrite (filter_cons _ l). rewrite decide_True by done. by rewrite IH.
  - done.
Qed.

Lemma call_removeByName_idempotent r name (st : Store) :
  call_removeByName r name (call_removeByName r name st)
  = call_removeByName r name st.
Proof.
  unfold call_removeByName. apply list_eq. intros j.
  destruct (decide (j = r)) as [->|Hne].
  - rewrite !list_lookup_alter_eq. destruct (st !! r) as [ls|]; [|done].
    cbn. by rewrite removeByName_idempotent.
  - by rewrite !list_lookup_alter_ne.
Qed.

(** An empty labels object stays empty. *)
Lemma getThresholdExpression_keeps_empty exp (st : Store) r0 :
  st !! r0 = Some [] → (getThresholdExpression exp st).2 !! r0 = Some [].
Proof.
  intros Hr0. unfold getThresholdExpression.
  destruct (as_base exp) as [operator lh rh| | | |]; try done.
  destruct (as_base lh) as [| name labels | | |]; try done.
  destruct (as_base rh) as [| | v | |]; try done.
  assert (∀ r (st1 : Store), st1 !! r0 = Some [] →
          call_removeByName r "networkID" st1 !! r0 = Some []) as Hcall.
  { intros r st1 H1. unfold call_removeByName.
    destruct (decide (r = r0)) as [->|Hne].
    - by rewrite list_lookup_alter_eq, H1.
    - by rewrite list_lookup_alter_ne. }
  cbn. destruct labels as [r|]; cbn.
  - destruct (asBinaryComparator operator); cbn; by apply Hcall.
  - destruct (asBinaryComparator operator); cbn; apply Hcall;
      by apply lookup_app_l_Some.
Qed.

(** X10.  [getThresholdExpression] never removes an object from the store
    and never changes an object other than the labels of the selector on
    the left of the operation: every other [Labels] object reads as
    before, whether the extraction succeeds or not. *)
Theorem getThresholdExpression_frame (exp : Expression) (st : Store) :
  let st' := (getThresholdExpression exp st).2 in
  (length st ≤ length st')%nat
  ∧ ∀ r', (r' < length st)%nat → selector_ref exp ≠ Some r' →
      st' !! r' = st !! r'.
Proof.
  cbn zeta. unfold getThresholdExpression, selector_ref.
  destruct (as_base exp) as [operator lh rh| | | |];
    try (cbn; split; [lia|done]).
  destruct (as_base lh) as [| name labels | | |];
    try (cbn; split; [lia|done]).
  destruct (as_base rh) as [| | v | |]; try (cbn; split; [lia|done]).
  destruct labels as [r|]; cbn; destruct (asBinaryComparator operator);
    cbn; unfold call_removeByName.
  1,2: split; [by rewrite length_alter|];
    intros r' Hlt Hne; apply list_lookup_alter_ne; congruence.
  all: split; [rewrite length_alter, length_app; simpl; lia|];
    intros r' Hlt _; rewrite list_lookup_alter_ne by lia;
    by apply lookup_app_l.
Qed.

(** X11.  When the operator is not a comparator, [getThresholdExpression]
    returns null but has already removed the label [networkID] from the
    labels object of the selector: the input is changed although nothing
    is extracted. *)
Theorem getThresholdExpression_null_still_strips (symbol : string)
    (name : option string) (r : ref) (v : Q) (st : Store) :
  let exp :=
    BinaryOperation (OperatorSymbol symbol)
      (InstantSelector name (Some r)) (Scalar v) in
  (getThresholdExpression exp st).1 = None
  ∧ (getThresholdExpression exp st).2 !! r
    = removeByName "networkID" <$> st !! r
  ∧ (getThresholdExpression
       (BinaryOperation (OperatorSymbol "+")
          (InstantSelector (Some "cpu_util"%string) (Some 0%nat))
          (Scalar (Qmake 90 1))) cpu_util_store).2
    ≠ cpu_util_store.
Proof.
  cbn zeta. split_and!.
  - reflexivity.
  - cbn. unfold call_removeByName. apply list_lookup_alter_eq.
  - by vm_compute.
Qed.

(** X12.  Extracting twice from the same expression is harmless when the
    selector has a labels object: the second run, on the store the first
    one left, returns the same result and leaves that store as it is. *)
Theorem getThresholdExpression_twice (operator : BinaryOperator)
    (name : option string) (r : ref) (rh : Expression) (st : Store) :
  let exp := BinaryOperation operator (InstantSelector name (Some r)) rh in
  getThresholdExpression exp (getThresholdExpression exp st).2
  = getThresholdExpression exp st.
Proof.
  cbn zeta. unfold getThresholdExpression. cbn [as_base].
  destruct (as_base rh) as [| | v | |]; try reflexivity.
  cbn. destruct (asBinaryComparator operator); cbn;
    by rewrite call_removeByName_idempotent.
Qed.

(** ** The hook after the first render *)

Lemma effect_keeps_cells (expression : option string) (h : HookState) :
  parsedExpression (effect expression h).1 = parsedExpression h
  ∧ effectDeps (effect expression h).1 = effectDeps h.
Proof.
  unfold effect. destruct (no_expression expression); [done|].
  destruct (parsedExpression h) as [exp|] eqn:E; [|by cbn; rewrite E].
  destruct (getThresholdExpression exp (store h)) as [[t|] st];
    cbn; by rewrite E.
Qed.

Lemma first_render_deps
    (Parse : option string → option (Expression * Store)) (props : Props) :
  let h := (useThresholdExpressionEditorState Parse props None).1 in
  effectDeps h = parsedExpression h.
Proof.
  cbn zeta. unfold useThresholdExpressionEditorState.
  destruct (new_Labels _) as [filters st].
  match goal with
  | |- context [effect ?e ?h0] =>
      pose proof (effect_keeps_cells e h0) as [Hp Hd];
      destruct (effect e h0) as [h' events]
  end.
  cbn [fst] in *. by rewrite Hp, Hd.
Qed.

Lemma render_settled
    (Parse : option string → option (Expression * Store)) (props : Props)
    (h : HookState) :
  effectDeps h = parsedExpression h →
  useThresholdExpressionEditorState Parse props (Some h) = (h, []).
Proof.
  intros Hdeps. unfold useThresholdExpressionEditorState.
  by rewrite decide_True.
Qed.

(** X13.  After the first render the hook never parses and never runs its
    effect again: a later render returns the state unchanged and does
    nothing to the outside, even when the expression or the feature flag
    passed to it have changed. *)
Theorem later_renders_change_nothing
    (Parse : option string → option (Expression * Store))
    (props props' : Props) :
  let h := (useThresholdExpressionEditorState Parse props None).1 in
  useThresholdExpressionEditorState Parse props' (Some h) = (h, []).
Proof. cbn zeta. apply render_settled, first_render_deps. Qed.

(** X14.  What the user sets after the first render stays: after
    [toggleMode], [setAdvancedEditorMode] or [setThresholdExpression] a
    render returns the state as the user left it, with the mode flipped by
    the toggle, and toggling twice gives the state back. *)
Theorem user_choice_survives_render
    (Parse : option string → option (Expression * Store))
    (props props' : Props) (b : bool) (t : ThresholdExpression) :
  let h := (useThresholdExpressionEditorState Parse props None).1 in
  let set := setThresholdExpression t (setAdvancedEditorMode b h) in
  useThresholdExpressionEditorState Parse props' (Some set) = (set, [])
  ∧ useThresholdExpressionEditorState Parse props' (Some (toggleMode h))
    = (toggleMode h, [])
  ∧ advancedEditorMode (toggleMode h) = negb (advancedEditorMode h)
  ∧ toggleMode (toggleMode h) = h.
Proof.
  cbn zeta. pose proof (first_render_deps Parse props) as Hdeps.
  cbn zeta in Hdeps. split_and!.
  - by apply render_settled.
  - by apply render_settled.
  - reflexivity.
  - destruct (useThresholdExpressionEditorState Parse props None).1.
    unfold toggleMode, setAdvancedEditorMode. cbn. by rewrite negb_involutive.
Qed.

(** X15.  On a non-empty expression that parses to a comparison of an
    instant selector with a scalar, the first render ends in simple mode
    whatever the feature flag says, with the threshold record read from the
    expression, its filters being the labels object of the selector with
    [networkID] removed; the parser is called once and no warning is
    raised. *)
Theorem parsed_threshold_lifecycle
    (Parse : option string → option (Expression * Store))
    (source : string) (enabled : option bool)
    (c : BinaryComparator) (name : option string) (r : ref) (v : Q)
    (st : Store) (ls : Labels) :
  no_expression (Some source) = false →
  Parse (Some source)
  = Some (BinaryOperation (OperatorComparator c)
            (InstantSelector name (Some r)) (Scalar v), st) →
  st !! r = Some ls →
  let '(h, events) :=
    useThresholdExpressionEditorState Parse (mkProps (Some source) enabled)
      None in
  events = [ParseCall (Some source)]
  ∧ advancedEditorMode h = false
  ∧ thresholdExpression h = mkThreshold (default ""%string name) r c v
  ∧ store h !! r = Some (removeByName "networkID" ls)
  ∧ "networkID"%string ∉ (removeByName "networkID" ls).*1.
Proof.
  intros Hsrc Hparse Hls. unfold useThresholdExpressionEditorState.
  cbn [expression thresholdEditorEnabled]. rewrite Hparse.
  cbn [new_Labels fmap option_fmap option_map fst].
  unfold effect. rewrite Hsrc. cbn.
  split_and!; try reflexivity.
  - unfold call_removeByName. rewrite list_lookup_alter_eq.
    by rewrite (lookup_app_l_Some _ _ _ _ Hls).
  - apply removeByName_not_elem.
Qed.

Lemma parsed_threshold_lifecycle_witness :
  let '(h, events) :=
    useThresholdExpressionEditorState cpu_util_parser
      (mkProps (Some cpu_util_source) (Some false)) None in
  events = [ParseCall (Some cpu_util_source)]
  ∧ advancedEditorMode h = false
  ∧ thresholdExpression h
    = mkThreshold "cpu_util" 0%nat CmpGt (Qmake 90 1)
  ∧ store h !! 0%nat = Some [("host", "a")]%string
  ∧ "networkID"%string ∉ [("host", "a")]%string.*1.
Proof.
  apply (parsed_threshold_lifecycle cpu_util_parser cpu_util_source
           (Some false) CmpGt (Some "cpu_util"%string) 0%nat (Qmake 90 1)
           cpu_util_store [("networkID", "abc"); ("host", "a")]%string);
    reflexivity.
Defined.

(** X16.  On a non-empty expression that parses to anything that fails one
    of the tests of [getThresholdExpression] (a binary operation, an
    instant selector on its left, a scalar on its right, a comparator as
    its operator), the first render ends in advanced mode whatever the
    feature flag says, the threshold record stays the initial one (empty
    name, [==], 0, no filter), and no warning is raised. *)
Theorem parsed_not_threshold_lifecycle
    (Parse : option string → option (Expression * Store))
    (source : string) (enabled : option bool) (exp : Expression)
    (st : Store) :
  no_expression (Some source) = false →
  Parse (Some source) = Some (exp, st) →
  passes_tests exp = false →
  let '(h, events) :=
    useThresholdExpressionEditorState Parse (mkProps (Some source) enabled)
      None in
  events = [ParseCall (Some source)]
  ∧ advancedEditorMode h = true
  ∧ metricName (thresholdExpression h) = ""%string
  ∧ comparator (thresholdExpression h) = CmpEq
  ∧ value (thresholdExpression h) = 0%Q
  ∧ store h !! filters (thresholdExpression h) = Some [].
Proof.
  intros Hsrc Hparse Hshape. unfold useThresholdExpressionEditorState.
  cbn [expression thresholdEditorEnabled]. rewrite Hparse.
  cbn [new_Labels fmap option_fmap option_map fst].
  unfold effect. rewrite Hsrc. cbn [parsedExpression store].
  pose proof (getThresholdExpression_untested exp (st ++ [[]]) Hshape) as Hnone.
  pose proof (getThresholdExpression_keeps_empty exp (st ++ [[]]) (length st))
    as Hempty.
  destruct (getThresholdExpression exp (st ++ [[]])) as [res st'].
  cbn [fst snd] in *. subst res.
  split_and!; try reflexivity.
  cbn. apply Hempty. by rewrite lookup_app_r, Nat.sub_diag.
Qed.

Lemma parsed_not_threshold_lifecycle_witness :
  let '(h, events) :=
    useThresholdExpressionEditorState sum_parser
      (mkProps (Some "a + b"%string) (Some true)) None in
  events = [ParseCall (Some "a + b"%string)]
  ∧ advancedEditorMode h = true
  ∧ metricName (thresholdExpression h) = ""%string
  ∧ comparator (thresholdExpression h) = CmpEq
  ∧ value (thresholdExpression h) = 0%Q
  ∧ store h !! filters (thresholdExpression h) = Some [].
Proof.
  apply (parsed_not_threshold_lifecycle sum_parser "a + b" (Some true)
           (BinaryOperation (OperatorSymbol "+")
              (InstantSelector (Some "a"%string) None)
              (InstantSelector (Some "b"%string) None)) []);
    reflexivity.
Defined.

(** X17.  On the first render the parser is called exactly once, and the
    warning is raised exactly when the expression is non-empty and the
    parser failed on it, and then once. *)
Theorem first_render_events
    (Parse : option string → option (Expression * Store)) (props : Props) :
  let events := (useThresholdExpressionEditorState Parse props None).2 in
  parser_calls events = 1%nat
  ∧ warnings events
    = match Parse (expression props) with
      | Some _ => 0%nat
      | None => if no_expression (expression props) then 0%nat else 1%nat
      end.
Proof.
  cbn zeta. unfold useThresholdExpressionEditorState.
  destruct (Parse (expression props)) as [[exp st]|];
    cbn [new_Labels fmap option_fmap option_map fst];
    unfold effect; destruct (no_expression (expression props));
    try (split; reflexivity).
  cbn [parsedExpression store].
  destruct (getThresholdExpression exp (st ++ [[]])) as [[t|] st'];
    split; reflexivity.
Qed.

(** X18.  The feature flag [thresholdEditorEnabled] is only a fallback: when
    the expression is empty or the parser succeeds on it, the first render
    gives the same state and the same events whatever the flag is. *)
Theorem flag_only_matters_on_parse_failure
    (Parse : option string → option (Expression * Store))
    (source : option string) (enabled enabled' : option bool) :
  no_expression source = true ∨ is_Some (Parse source) →
  useThresholdExpressionEditorState Parse (mkProps source enabled) None
  = useThresholdExpressionEditorState Parse (mkProps source enabled') None.
Proof.
  intros Hcase. unfold useThresholdExpressionEditorState.
  cbn [expression thresholdEditorEnabled].
  destruct (Parse source) as [[exp st]|] eqn:Hparse;
    cbn [new_Labels fmap option_fmap option_map fst];
    unfold effect; destruct (no_expression source) eqn:Hsrc; try reflexivity.
  destruct Hcase as [?|[? ?]]; done.
Qed.

Lemma flag_only_matters_on_parse_failure_witness :
  useThresholdExpressionEditorState cpu_util_parser
    (mkProps (Some cpu_util_source) (Some true)) None
  = useThresholdExpressionEditorState cpu_util_parser
      (mkProps (Some cpu_util_source) None) None.
Proof.
  apply (flag_only_matters_on_parse_failure cpu_util_parser
           (Some cpu_util_source) (Some true) None).
  right. by eexists.
Defined.

(** ** saveAlert *)

(** X19.  [saveAlert] calls the API at most once (not at all without a form
    state), and leaves the editor exactly when the call was fulfilled and
    the snackbar of the success returned: after a rejected call, or without
    a form state, [onExit] is not called.  It raises one snackbar, except
    that a fulfilled call is followed by a second one, of the failure, when
    the success snackbar or [onExit] throws an error, and that a rejection
    with a malformed error raises none. *)
Theorem saveAlert_outcome (formState : option FormState) (isNew : bool)
    (networkId : string) (api : bool → SaveRequest → ApiOutcome)
    (enqueueSnackbar : string → string → option Thrown)
    (onExit : option Thrown) :
  let events :=
    saveAlert formState isNew networkId api enqueueSnackbar onExit in
  api_calls events = match formState with Some _ => 1%nat | None => 0%nat end
  ∧ exits events
    = match formState with
      | Some form =>
          match api isNew (mkRequest networkId (toAlertConfig form)) with
          | Fulfilled =>
              match enqueueSnackbar (success_message isNew) "success" with
              | None => 1%nat
              | Some _ => 0%nat
              end
          | Rejected _ _ | RejectedMalformed => 0%nat
          end
      | None => 0%nat
      end
  ∧ snackbars events
    = match formState with
      | Some form =>
          match api isNew (mkRequest networkId (toAlertConfig form)) with
          | Fulfilled =>
              match
                match enqueueSnackbar (success_message isNew) "success" with
                | Some error => Some error
                | None => onExit
                end
              with
              | Some (ErrorValue _ _) => 2%nat
              | Some Malformed | None => 1%nat
              end
          | Rejected _ _ => 1%nat
          | RejectedMalformed => 0%nat
          end
      | None => 1%nat
      end.
Proof.
  cbn zeta. unfold saveAlert. destruct formState as [form|]; [|done].
  destruct (api isNew _) as [|response_message message|].
  - destruct (enqueueSnackbar _ _) as [[rm m|]|];
      [by destruct isNew | by destruct isNew |].
    destruct onExit as [[rm m|]|]; by destruct isNew.
  - by destruct isNew.
  - by destruct isNew.
Qed.

(** X20.  The request that [saveAlert] sends is the first thing it does, it
    carries the rule that [toAlertConfig] builds from the form, and it goes
    to [createAlertRule] for a new rule and to [editAlertRule] otherwise;
    a rejected call is reported as "Unable to create rule", with the
    message of the response when there is one and the message of the error
    otherwise, for an edit as well. *)
Theorem saveAlert_request (form : FormState) (isNew : bool)
    (networkId : string) (api : bool → SaveRequest → ApiOutcome)
    (enqueueSnackbar : string → string → option Thrown)
    (onExit : option Thrown) :
  let request := mkRequest networkId (toAlertConfig form) in
  let events :=
    saveAlert (Some form) isNew networkId api enqueueSnackbar onExit in
  head events
  = Some (if isNew then CreateAlertRule request else EditAlertRule request)
  ∧ ∀ response_message message,
      api isNew request = Rejected response_message message →
      tail events
      = [EnqueueSnackbar
           ("Unable to create rule: "
            +:+ default message response_message +:+ ".") "error"].
Proof.
  cbn zeta. unfold saveAlert. split.
  - destruct (api isNew _); [|done|done].
    destruct (enqueueSnackbar _ _); [done|]. by destruct onExit.
  - intros response_message message ->. cbn [tail catch_events].
    unfold failure_events. by destruct response_message.
Qed.
